(** * vecsort: ordering of plotter / laser-cutter strokes

    A shallow embedding of [vecsort.c].  The C program keeps the strokes of
    one pass in a singly linked list whose nodes carry a back reference
    ([prev], the address of the slot that points at the node) so that a node
    can be unlinked in constant time.  Here a list of nodes is a Rocq [list],
    a node pointer into a list is the node's position in it, and unlinking
    through [prev] is removal at that position.  The coordinates are C
    [double]s: IEEE 754 binary64, which is what Rocq's primitive [float] is,
    so every arithmetic step below is the one a machine with plain binary64
    arithmetic performs (rounding to nearest, infinities and NaN included). *)

From Stdlib Require Import List Bool Arith ZArith Lia Permutation.
From Stdlib Require Import Floats.
Import ListNotations.

Local Open Scope float_scope.

(** ** Data *)

(** [struct _vector], without its two link fields. *)
Record vector_t : Set := mkVector {
  x1 : float;
  y1 : float;
  x2 : float;
  y2 : float
}.

(** What a function that may call [abort()] or loop does: the loop models take
    fuel, and [OutOfFuel] is kept apart from the program's own [abort()]. *)
Inductive run (A : Type) : Type :=
| OutOfFuel : run A
| Aborted : run A
| Returned : A -> run A.

Arguments OutOfFuel {A}.
Arguments Aborted {A}.
Arguments Returned {A} _.

(** ** [fpeq] *)

(** [const double eps = 1e-8]: the double nearest to 1e-8. *)
Definition eps : float := 0x1.5798ee2308c3ap-27.

Definition fpeq (x y : float) : bool := abs (x - y) <? eps.

(** ** [vector_create] *)

(** The body of the insertion loop decides, for the member [p] under the
    cursor, whether the function returns without appending.  The three tests
    are tried in the order of the source; the third one does not look at [p]
    but sits inside the loop all the same. *)
Definition same_as (p : vector_t) (nx1 ny1 nx2 ny2 : float) : bool :=
  fpeq (x1 p) nx1 && fpeq (y1 p) ny1 && fpeq (x2 p) nx2 && fpeq (y2 p) ny2.

Definition reverse_of (p : vector_t) (nx1 ny1 nx2 ny2 : float) : bool :=
  fpeq (x1 p) nx2 && fpeq (y1 p) ny2 && fpeq (x2 p) nx1 && fpeq (y2 p) ny1.

Definition zero_length (nx1 ny1 nx2 ny2 : float) : bool :=
  fpeq nx1 nx2 && fpeq ny1 ny2.

Definition rejects (p : vector_t) (nx1 ny1 nx2 ny2 : float) : bool :=
  if same_as p nx1 ny1 nx2 ny2 then true
  else if reverse_of p nx1 ny1 nx2 ny2 then true
  else zero_length nx1 ny1 nx2 ny2.

(** [vector_create(vectors, x1, y1, x2, y2)]; the result is the list after the
    call.  The parameters are [nx1 .. ny2] because [x1 .. y2] name the fields.
    [calloc] is taken to succeed. *)
Fixpoint vector_create (vectors : list vector_t) (nx1 ny1 nx2 ny2 : float)
  : list vector_t :=
  match vectors with
  | [] => [mkVector nx1 ny1 nx2 ny2]
  | p :: rest =>
      if rejects p nx1 ny1 nx2 ny2 then vectors
      else p :: vector_create rest nx1 ny1 nx2 ny2
  end.

(** ** [vector_find_closest] *)

(** The three locals of the search.  The pointer [best] is the position of a
    node in the list being scanned, together with the node found there. *)
Record closest_t : Set := mkClosest {
  best_dist : float;
  best : option (nat * vector_t);
  do_reverse : bool
}.

Definition closest_init : closest_t := mkClosest 1e9 None false.

Definition sqdist (cx cy x y : float) : float :=
  let dx := cx - x in
  let dy := cy - y in
  dx * dx + dy * dy.

(** One turn of the [while (v)] loop, at the node [v] of position [i]. *)
Definition closest_step (cx cy : float) (i : nat) (v : vector_t) (c : closest_t)
  : closest_t :=
  let dist1 := sqdist cx cy (x1 v) (y1 v) in
  let c1 :=
    if dist1 <? best_dist c then mkClosest dist1 (Some (i, v)) false else c in
  let dist2 := sqdist cx cy (x2 v) (y2 v) in
  if dist2 <? best_dist c1 then mkClosest dist2 (Some (i, v)) true else c1.

Fixpoint closest_scan (cx cy : float) (i : nat) (v : list vector_t) (c : closest_t)
  : closest_t :=
  match v with
  | [] => c
  | s :: rest => closest_scan cx cy (S i) rest (closest_step cx cy i s c)
  end.

(** Flip [x1/x2] and [y1/y2]. *)
Definition reversed (v : vector_t) : vector_t :=
  mkVector (x2 v) (y2 v) (x1 v) (y1 v).

(** Unlinking the node of position [i] through its [prev] slot. *)
Fixpoint unlink (i : nat) (l : list vector_t) : list vector_t :=
  match l, i with
  | [], _ => []
  | _ :: rest, O => rest
  | s :: rest, S j => s :: unlink j rest
  end.

(** The result is the node handed back (already flipped if need be) and the
    list it was taken from, after the removal; [None] is the [NULL] return. *)
Definition vector_find_closest (v : list vector_t) (cx cy : float)
  : option (vector_t * list vector_t) :=
  let c := closest_scan cx cy 0 v closest_init in
  match best c with
  | None => None
  | Some (i, b) => Some (if do_reverse c then reversed b else b, unlink i v)
  end.

(** ** [vector_optimize] *)

(** The main loop: [vectors] is what is left of the input list,
    [vs] the output list built so far (appended at [vs_tail]). *)
Fixpoint optimize_loop (fuel : nat) (vectors vs : list vector_t) (cx cy : float)
  : run (list vector_t * float * float) :=
  match vectors with
  | [] => Returned (vs, cx, cy)
  | _ :: _ =>
      match fuel with
      | O => OutOfFuel
      | S fuel' =>
          match vector_find_closest vectors cx cy with
          | None => Aborted
          | Some (v, vectors') =>
              optimize_loop fuel' vectors' (vs ++ [v]) (x2 v) (y2 v)
          end
      end
  end.

(** The result is the new list and the values left in [*cx_ptr], [*cy_ptr].
    Every turn of the loop unlinks one node, so the length of the input is
    fuel enough (see [vector_optimize_fuel]). *)
Definition vector_optimize (vectors : list vector_t) (cx cy : float)
  : run (list vector_t * float * float) :=
  optimize_loop (length vectors) vectors [] cx cy.

(** ** [vector_transit_len] and [vector_stats] *)

(** [sqrt(dx*dx + dy*dy)], as the three length computations spell it. *)
Definition euclid (dx dy : float) : float := sqrt (dx * dx + dy * dy).

Fixpoint transit_len_loop (v : list vector_t) (lx ly transit_len_sum : float)
  : float :=
  match v with
  | [] => transit_len_sum
  | s :: rest =>
      let transit_len := euclid (lx - x1 s) (ly - y1 s) in
      let transit_len_sum :=
        if negb (transit_len =? 0) then transit_len_sum + transit_len
        else transit_len_sum in
      transit_len_loop rest (x2 s) (y2 s) transit_len_sum
  end.

Definition vector_transit_len (v : list vector_t) : float :=
  transit_len_loop v 0 0 0.

(** The four numbers [vector_stats] prints. *)
Record stats_t : Set := mkStats {
  cuts : Z;
  cut_len_sum : float;
  transits : Z;
  transit_len_sum : float
}.

Fixpoint stats_loop (v : list vector_t) (lx ly : float) (st : stats_t) : stats_t :=
  match v with
  | [] => st
  | s :: rest =>
      let transit_len := euclid (lx - x1 s) (ly - y1 s) in
      let st1 :=
        if negb (transit_len =? 0)
        then mkStats (cuts st) (cut_len_sum st)
                     (transits st + 1) (transit_len_sum st + transit_len)
        else st in
      let cut_len := euclid (x1 s - x2 s) (y1 s - y2 s) in
      let st2 :=
        if negb (cut_len =? 0)
        then mkStats (cuts st1 + 1) (cut_len_sum st1 + cut_len)
                     (transits st1) (transit_len_sum st1)
        else st1 in
      stats_loop rest (x2 s) (y2 s) st2
  end.

Definition vector_stats (v : list vector_t) : stats_t :=
  stats_loop v 0 0 (mkStats 0 0 0 0).

(** ** [vector_refine] *)

(** First loop: the longest transit.  [transit_v] points at the node the
    longest transit leads to. *)
Record longest_t : Set := mkLongest {
  max_transit : float;
  transit_v : option (nat * vector_t)
}.

Fixpoint longest_scan (v : list vector_t) (i : nat) (cx cy : float) (l : longest_t)
  : longest_t :=
  match v with
  | [] => l
  | s :: rest =>
      let transit_len := euclid (cx - x1 s) (cy - y1 s) in
      let l' :=
        if negb (fpeq transit_len 0) && (max_transit l <? transit_len)
        then mkLongest transit_len (Some (i, s))
        else l in
      longest_scan rest (S i) (x2 s) (y2 s) l'
  end.

(** Second loop: the closest end point among the nodes before [transit_v]. *)
Record nearest_t : Set := mkNearest {
  min_dist : float;
  closest : option nat
}.

(** The squared distance from the end of [v] to the start of [tv]. *)
Definition end_dist (tv v : vector_t) : float :=
  let dx := x2 v - x1 tv in
  let dy := y2 v - y1 tv in
  dx * dx + dy * dy.

(** One turn: [if (min_dist < dist) continue;] then the two assignments. *)
Definition nearest_step (tv : vector_t) (i : nat) (v : vector_t) (n : nearest_t)
  : nearest_t :=
  let dist := end_dist tv v in
  if min_dist n <? dist then n else mkNearest dist (Some i).

Fixpoint nearest_scan (tv : vector_t) (i : nat) (v : list vector_t) (n : nearest_t)
  : nearest_t :=
  match v with
  | [] => n
  | s :: rest => nearest_scan tv (S i) rest (nearest_step tv i s n)
  end.

(** The nodes visited by [for (v = vector; v != transit_v; v = v->next)] are
    those before position [k], the position of [transit_v]. *)
Definition closest_before (vector : list vector_t) (k : nat) (tv : vector_t)
  : option nat :=
  closest (nearest_scan tv 0 (firstn k vector) (mkNearest 1e9 None)).

(** Linking [tv] in behind the node of position [j]. *)
Definition relink_after (j : nat) (tv : vector_t) (l : list vector_t)
  : list vector_t :=
  firstn (S j) l ++ tv :: skipn (S j) l.

(** The result is the list after the call, the values left in the two
    pointers, and the returned reduction. *)
Definition vector_refine (vector : list vector_t) (cx cy : float)
  : run (list vector_t * float * float * float) :=
  let initial_transit_len := vector_transit_len vector in
  match transit_v (longest_scan vector 0 cx cy (mkLongest 0 None)) with
  | None => Returned (vector, cx, cy, 0)
  | Some (k, tv) =>
      match closest_before vector k tv with
      | None => Returned (vector, cx, cy, 0)
      | Some j =>
          let moved := relink_after j tv (unlink k vector) in
          match vector_optimize (skipn (S (S j)) moved) (x2 tv) (y2 tv) with
          | OutOfFuel => OutOfFuel
          | Aborted => Aborted
          | Returned (vs, cx2, cy2) =>
              let vector' := firstn (S (S j)) moved ++ vs in
              let new_transit_len := vector_transit_len vector' in
              Returned (vector', cx2, cy2, initial_transit_len - new_transit_len)
          end
      end
  end.

(** ** [vectors_parse] *)

(** A line of the vector file as [fgets] and [sscanf] hand it over: the first
    character selects the command, the numbers that follow are its operands
    (for [P] in the order of the file, which is blue, green, red).  Reading
    the text itself is not modelled. *)
Inductive line : Set :=
| LineP (b g r : Z)
| LineM (x y : float)
| LineL (x y : float)
| LineZ
| LineX
| LineOther.

(** The locals of [vectors_parse]; [vectors] is the array of
    [VECTOR_PASSES] lists. *)
Record parse_t : Set := mkParse {
  vectors : list (list vector_t);
  mx : float;
  my : float;
  lx : float;
  ly : float;
  pass : nat;
  count : Z
}.

Definition VECTOR_PASSES : nat := 3.

(** [vectors[pass].vectors], read and written. *)
Definition pass_store (vs : list (list vector_t)) (pass : nat) : list vector_t :=
  nth pass vs [].

Fixpoint set_pass (vs : list (list vector_t)) (pass : nat) (st : list vector_t)
  : list (list vector_t) :=
  match vs, pass with
  | [], _ => []
  | _ :: rest, O => st :: rest
  | a :: rest, S p => a :: set_pass rest p st
  end.

(** The three tests of the [P] case; [None] is the branch that exits. *)
Definition select_pass (b g r : Z) : option nat :=
  if ((r =? 0) && negb (g =? 0) && (b =? 0))%Z then Some 0%nat
  else if (negb (r =? 0) && (g =? 0) && (b =? 0))%Z then Some 1%nat
  else if ((r =? 0) && (g =? 0) && negb (b =? 0))%Z then Some 2%nat
  else None.

(** How [vectors_parse] ends: [exit(-1)], [return NULL], or [return vectors]
    (with the locals as they are then, [count] being what is printed). *)
Inductive parse_result : Set :=
| ParseExit
| ParseNull
| Parsed (st : parse_t).

(** One line that does not end the loop; [None] for the lines that do. *)
Definition parse_line (l : line) (st : parse_t) : option parse_t :=
  match l with
  | LineP b g r =>
      match select_pass b g r with
      | Some p => Some (mkParse (vectors st) (mx st) (my st) (lx st) (ly st) p (count st))
      | None => None
      end
  | LineM x y =>
      Some (mkParse (vectors st) x y x y (pass st) (count st))
  | LineL x y =>
      Some (mkParse
              (set_pass (vectors st) (pass st)
                 (vector_create (pass_store (vectors st) (pass st))
                    (lx st) (ly st) x y))
              (mx st) (my st) x y (pass st) (count st + 1))
  | LineZ =>
      (* [lx = mx; lx = my;]: the second assignment is to [lx] again *)
      Some (mkParse
              (set_pass (vectors st) (pass st)
                 (vector_create (pass_store (vectors st) (pass st))
                    (lx st) (ly st) (mx st) (my st)))
              (mx st) (my st) (my st) (ly st) (pass st) (count st))
  | LineX => None
  | LineOther => None
  end.

(** The [while (fgets(...))] loop; the input running out is the end of the
    file. *)
Fixpoint parse_loop (input : list line) (st : parse_t) : parse_result :=
  match input with
  | [] => Parsed st
  | l :: rest =>
      match parse_line l st with
      | Some st' => parse_loop rest st'
      | None =>
          match l with
          | LineX => Parsed st
          | LineP _ _ _ => ParseExit
          | _ => ParseNull
          end
      end
  end.

Definition vectors_parse (input : list line) : parse_result :=
  parse_loop input (mkParse (repeat [] VECTOR_PASSES) 0 0 0 0 0 0).

(** ** [output_vector] and [generate_vectors] *)

(** A line of the output, blank lines left out; a number stands for its
    [%.3f] rendering. *)
Inductive out_line : Set :=
| OutP (r g b : Z)
| OutM (x y : float)
| OutL (x y : float).

Fixpoint output_loop (v : list vector_t) (lx ly : float) : list out_line :=
  match v with
  | [] => []
  | s :: rest =>
      (if fpeq (x1 s) lx && fpeq (y1 s) ly
       then [OutL (x2 s) (y2 s)]
       else [OutM (x1 s) (y1 s); OutL (x2 s) (y2 s)])
      ++ output_loop rest (x2 s) (y2 s)
  end.

Definition output_vector (v : list vector_t) : list out_line :=
  output_loop v 0 0.

(** The [for] loop of [generate_vectors] from pass [i] on, [passes] being
    the lists of the passes [i], [i + 1], ...; the result is what is written
    when the loop completes.  What [vector_stats] prints on the way goes to
    the error stream and is left out. *)
Fixpoint generate_loop (i : nat) (passes : list (list vector_t)) (lx ly : float)
  : run (list out_line) :=
  match passes with
  | [] => Returned []
  | vs :: rest =>
      match vs with
      | [] => generate_loop (S i) rest lx ly
      | _ :: _ =>
          match vector_optimize vs lx ly with
          | OutOfFuel => OutOfFuel
          | Aborted => Aborted
          | Returned (chain, lx', ly') =>
              match generate_loop (S i) rest lx' ly' with
              | OutOfFuel => OutOfFuel
              | Aborted => Aborted
              | Returned out =>
                  Returned
                    (OutP (if Nat.eqb i 0 then 100 else 0)
                          (if Nat.eqb i 1 then 100 else 0)
                          (if Nat.eqb i 2 then 100 else 0)
                     :: output_vector chain ++ out)
              end
          end
      end
  end.

(** [generate_vectors], for an input that [vectors_parse] returns an array
    for; [None] when it does not (the program has exited, or goes on with a
    null pointer). *)
Definition generate_vectors (input : list line) : option (run (list out_line)) :=
  match vectors_parse input with
  | Parsed st => Some (generate_loop 0 (vectors st) 0 0)
  | _ => None
  end.

(** ** Definitions used to state the properties *)

(** The squared distances the search of [vector_find_closest] looks at, in the
    order it looks at them: for every node, first end A, then end B. *)
Definition endpoint_dists (cx cy : float) (v : list vector_t) : list float :=
  flat_map (fun s => [sqdist cx cy (x1 s) (y1 s); sqdist cx cy (x2 s) (y2 s)]) v.

(** The two end points of every node of a list. *)
Definition endpoints (v : list vector_t) : list (float * float) :=
  flat_map (fun s => [(x1 s, y1 s); (x2 s, y2 s)]) v.

(** [s] has an end within the search radius of the position [p]. *)
Definition in_reach (p : float * float) (s : vector_t) : Prop :=
  (sqdist (fst p) (snd p) (x1 s) (y1 s) <? 1e9) = true \/
  (sqdist (fst p) (snd p) (x2 s) (y2 s) <? 1e9) = true.

(** Two nodes are the same stroke when they have the same pair of end points,
    whatever the direction. *)
Definition same_stroke (a b : vector_t) : Prop := a = b \/ a = reversed b.

(** [chain] holds the strokes of [store], each once, in some order. *)
Definition same_strokes (chain store : list vector_t) : Prop :=
  exists l, Permutation l store /\ Forall2 same_stroke chain l.

(** The search of [vector_find_closest] read as a search over a plain list of
    distances: [k] is the position of the head of [ds], [m] the least distance
    so far and [sel] where it was met. *)
Fixpoint first_min (k : nat) (ds : list float) (m : float) (sel : option nat)
  : float * option nat :=
  match ds with
  | [] => (m, sel)
  | d :: rest =>
      if d <? m then first_min (S k) rest d (Some k)
      else first_min (S k) rest m sel
  end.

(** The end the search has matched, as a position in [endpoint_dists]: end A
    of node [j] is at [2 * j], end B at [S (2 * j)]. *)
Definition matched (c : closest_t) : option nat :=
  match best c with
  | None => None
  | Some (j, _) => Some (if do_reverse c then S (2 * j) else 2 * j)%nat
  end.

(** The transits of a list traversed from the pen position [(lx, ly)]: from
    there to the start of the first node, then from the end of each node to
    the start of the next. *)
Fixpoint transits_from (lx ly : float) (v : list vector_t) : list float :=
  match v with
  | [] => []
  | s :: rest => euclid (lx - x1 s) (ly - y1 s) :: transits_from (x2 s) (y2 s) rest
  end.

(** The transits between consecutive nodes only: one for each pair of
    neighbours, from the end of the first to the start of the second. *)
Definition pair_transits (v : list vector_t) : list float :=
  match v with
  | [] => []
  | s :: rest => transits_from (x2 s) (y2 s) rest
  end.

(** Dropping the transits of length exactly zero, and adding up from the left
    as the loops do. *)
Definition nonzero (ts : list float) : list float :=
  filter (fun t => negb (t =? 0)) ts.

Definition sum_floats (ts : list float) : float := fold_left add ts 0.

(** The node of position [j] of [prefix] is as close to the start of [tv] as
    any node of [prefix]. *)
Definition attains_min (tv : vector_t) (prefix : list vector_t) (j : nat) : Prop :=
  exists s, nth_error prefix j = Some s /\
            forall t, In t prefix -> (end_dist tv s <=? end_dist tv t) = true.

(** First-found-wins for the second loop of [vector_refine]: the node chosen
    is the earliest of the nodes before [transit_v] that attains the minimum. *)
Definition first_wins (vector : list vector_t) (k : nat) (tv : vector_t) : Prop :=
  forall j, closest_before vector k tv = Some j ->
    attains_min tv (firstn k vector) j /\
    forall i, (i < j)%nat -> ~ attains_min tv (firstn k vector) i.

(** A list with no transit to speak of when traversed from [(cx, cy)], as
    the first loop of [vector_refine] tests it: the length of every transit,
    [sqrt(dx*dx + dy*dy)], is within [fpeq] of zero. *)
Fixpoint continuous (v : list vector_t) (cx cy : float) : bool :=
  match v with
  | [] => true
  | s :: rest =>
      fpeq (euclid (cx - x1 s) (cy - y1 s)) 0 && continuous rest (x2 s) (y2 s)
  end.

(** The start of every node coincides with the pen, coordinate by
    coordinate within [eps], when the list is traversed from [(cx, cy)]: the
    test of [output_vector] for the continuation of a line.  It allows a
    transit of up to [eps] along each axis, so of more than [eps] in length. *)
Fixpoint coincident (v : list vector_t) (cx cy : float) : bool :=
  match v with
  | [] => true
  | s :: rest =>
      fpeq (x1 s) cx && fpeq (y1 s) cy && coincident rest (x2 s) (y2 s)
  end.

(** ** Sample data *)

(** Three strokes, two of them joined end to start. *)
Definition scenario : list vector_t :=
  [mkVector 0 0 1 0; mkVector 5 5 5 6; mkVector 1 0 1 1].

(** Two strokes, the first of which is closer by its end. *)
Definition backwards : list vector_t :=
  [mkVector 5 6 5 5; mkVector 0 0 1 0].

(** A sequenced list whose fourth node ends 2^-27 off the start of the fifth
    along each axis: less than [eps] on either axis, more than [eps] in
    length. *)
Definition wobble : list vector_t :=
  [mkVector 0 0 1 0; mkVector 1 0 5 5; mkVector 5 5 6 6;
   mkVector 6 6 0x1.0000002p+0 0x1p-27; mkVector 1 0 7 7].

(** A sequenced list whose longest transit leads to the fourth node, the ends
    of the first two nodes being equally far from its start. *)
Definition detour : list vector_t :=
  [mkVector 0 0 1 0; mkVector 1 0 2 0; mkVector 2 0 10 0;
   mkVector 1.5 7 1.5 8; mkVector 10 1 10 2].

(** ** Definitions used to state further properties *)

(** [p] turns away the coordinates of [q]: what [vector_create] tests when
    [q] comes in while [p] is a member. *)
Definition rejected_by (p q : vector_t) : bool :=
  rejects p (x1 q) (y1 q) (x2 q) (y2 q).

(** No member is turned away by a member in front of it: it is neither the
    same segment nor the reverse of an earlier one (within [eps]), and it is
    not of zero length unless it is the first. *)
Definition store_ok (v : list vector_t) : Prop :=
  forall i j p q,
    (i < j)%nat -> nth_error v i = Some p -> nth_error v j = Some q ->
    rejected_by p q = false.

(** Every node of the list starts at an end point that is within the search
    radius of the pen and that no end point of this or a later node is
    strictly closer to; the pen then moves to the end of the node. *)
Fixpoint greedy_chain (vs : list vector_t) (cx cy : float) : Prop :=
  match vs with
  | [] => True
  | v :: back =>
      (sqdist cx cy (x1 v) (y1 v) <? 1e9) = true /\
      (forall w, In w (v :: back) ->
         (sqdist cx cy (x1 w) (y1 w) <? sqdist cx cy (x1 v) (y1 v)) = false /\
         (sqdist cx cy (x2 w) (y2 w) <? sqdist cx cy (x1 v) (y1 v)) = false) /\
      greedy_chain back (x2 v) (y2 v)
  end.

(** What [best_dist] is during the search from [(cx, cy)]: the seed while
    [best] is [NULL], and then the distance of the matched end of the node
    [best] points at, which is below the seed. *)
Definition tracks (cx cy : float) (c : closest_t) : Prop :=
  (best c = None -> best_dist c = 1e9) /\
  (forall i s, best c = Some (i, s) ->
     best_dist c = (if do_reverse c then sqdist cx cy (x2 s) (y2 s)
                    else sqdist cx cy (x1 s) (y1 s)) /\
     (best_dist c <? 1e9) = true).

(** The cut lengths [vector_stats] computes, node by node. *)
Definition cut_lengths (v : list vector_t) : list float :=
  map (fun s => euclid (x1 s - x2 s) (y1 s - y2 s)) v.

(** The lines that end the loop of [vectors_parse]: [X], a line that is no
    command, and a [P] line whose colour is not pure red, green or blue. *)
Definition stops (l : line) : bool :=
  match l with
  | LineX | LineOther => true
  | LineP b g r =>
      match select_pass b g r with
      | None => true
      | Some _ => false
      end
  | LineM _ _ | LineL _ _ | LineZ => false
  end.

(** The locals after the lines [pre], none of which ends the loop. *)
Definition run_lines (pre : list line) (st : parse_t) : parse_t :=
  fold_left (fun st l => match parse_line l st with
                         | Some st' => st'
                         | None => st
                         end) pre st.

(** The points the [L] lines of an output lead to, and its [P] lines. *)
Definition line_ends (out : list out_line) : list (float * float) :=
  flat_map (fun o => match o with
                     | OutL x y => [(x, y)]
                     | _ => []
                     end) out.

Definition headers (out : list out_line) : list out_line :=
  filter (fun o => match o with
                   | OutP _ _ _ => true
                   | _ => false
                   end) out.

(** The number of segments held by an array of passes, and the passes that
    hold any. *)
Definition total_stored (passes : list (list vector_t)) : nat :=
  list_sum (map (@length vector_t) passes).

Definition nonempty_passes (passes : list (list vector_t)) : list (list vector_t) :=
  filter (fun vs => match vs with
                    | [] => false
                    | _ :: _ => true
                    end) passes.

(** * Properties *)

(** ** The order of binary64 numbers

    The comparisons of primitive floats are specified by [SFcompare] on
    [spec_float]; the facts the searches rely on are read off it. *)

Ltac order_cases :=
  repeat match goal with
  | s : bool |- _ => destruct s
  end;
  simpl in *; try congruence;
  repeat match goal with
  | H : context [Pos.compare_cont Eq ?a ?b] |- _ =>
      change (Pos.compare_cont Eq a b) with (Pos.compare a b) in H
  | |- context [Pos.compare_cont Eq ?a ?b] =>
      change (Pos.compare_cont Eq a b) with (Pos.compare a b)
  | H : context [Z.compare ?a ?b] |- _ => destruct (Z.compare_spec a b); simpl in H
  | |- context [Z.compare ?a ?b] => destruct (Z.compare_spec a b); simpl
  | H : context [Pos.compare ?a ?b] |- _ => destruct (Pos.compare_spec a b); simpl in H
  | |- context [Pos.compare ?a ?b] => destruct (Pos.compare_spec a b); simpl
  end;
  try congruence; try lia.

Lemma SFcompare_le_lt x y z c :
  SFcompare x y = Some c -> c <> Gt -> SFcompare y z = Some Lt ->
  SFcompare x z = Some Lt.
Proof.
  destruct x as [sx|sx| |sx mx ex], y as [sy|sy| |sy my ey], z as [sz|sz| |sz mz ez];
    simpl; intros H1 Hc H2; try discriminate;
    try (injection H1 as H1); try (injection H2 as H2); subst; f_equal;
    order_cases.
Qed.

Lemma SFcompare_le_le x y z c c' :
  SFcompare x y = Some c -> c <> Gt -> SFcompare y z = Some c' -> c' <> Gt ->
  exists c'', SFcompare x z = Some c'' /\ c'' <> Gt.
Proof.
  destruct x as [sx|sx| |sx mx ex], y as [sy|sy| |sy my ey], z as [sz|sz| |sz mz ez];
    simpl; intros H1 Hc H2 Hc'; try discriminate;
    try (injection H1 as H1); try (injection H2 as H2); subst;
    eexists; (split; [reflexivity|]); order_cases.
Qed.

Lemma SFcompare_opp x y c :
  SFcompare x y = Some c -> SFcompare y x = Some (CompOpp c).
Proof.
  destruct x as [sx|sx| |sx mx ex], y as [sy|sy| |sy my ey];
    simpl; intros H1; try discriminate;
    try (injection H1 as H1); subst; f_equal; order_cases.
Qed.

Lemma SFcompare_defined x y :
  SFcompare x x <> None -> SFcompare y y <> None -> SFcompare x y <> None.
Proof.
  destruct x as [sx|sx| |sx mx ex], y as [sy|sy| |sy my ey];
    simpl; intros H1 H2; congruence.
Qed.

Lemma SFcompare_self x c : SFcompare x x = Some c -> c = Eq.
Proof.
  destruct x as [sx|sx| |sx mx ex]; simpl; intros H; try discriminate;
    injection H as H; subst; order_cases.
Qed.

Lemma is_nan_compare x : is_nan x = false -> SFcompare (Prim2SF x) (Prim2SF x) <> None.
Proof.
  unfold is_nan. rewrite eqb_spec. unfold SFeqb.
  destruct (SFcompare (Prim2SF x) (Prim2SF x)); [discriminate|].
  intros H; discriminate H.
Qed.

Lemma ltb_is_nan_l x y : (x <? y) = true -> is_nan x = false.
Proof.
  unfold is_nan. rewrite ltb_spec, eqb_spec. unfold SFltb, SFeqb.
  destruct (Prim2SF x) as [sx|sx| |sx mx ex], (Prim2SF y) as [sy|sy| |sy my ey];
    simpl; intros H; try discriminate; order_cases.
Qed.

Lemma leb_ltb_trans x y z : (x <=? y) = true -> (y <? z) = true -> (x <? z) = true.
Proof.
  rewrite leb_spec, !ltb_spec. unfold SFleb, SFltb.
  destruct (SFcompare (Prim2SF x) (Prim2SF y)) as [c|] eqn:E1; [|discriminate].
  destruct (SFcompare (Prim2SF y) (Prim2SF z)) as [[]|] eqn:E2; try discriminate.
  intros H _.
  rewrite (SFcompare_le_lt _ _ _ c E1); [reflexivity| |exact E2].
  intros ->; discriminate.
Qed.

Lemma ltb_leb x y : (x <? y) = true -> (x <=? y) = true.
Proof.
  rewrite leb_spec, ltb_spec. unfold SFleb, SFltb.
  destruct (SFcompare (Prim2SF x) (Prim2SF y)) as [[]|]; congruence.
Qed.

Lemma ltb_trans x y z : (x <? y) = true -> (y <? z) = true -> (x <? z) = true.
Proof. intros H; apply leb_ltb_trans, ltb_leb, H. Qed.

Lemma leb_trans x y z : (x <=? y) = true -> (y <=? z) = true -> (x <=? z) = true.
Proof.
  rewrite !leb_spec. unfold SFleb.
  destruct (SFcompare (Prim2SF x) (Prim2SF y)) as [c|] eqn:E1; [|discriminate].
  destruct (SFcompare (Prim2SF y) (Prim2SF z)) as [c'|] eqn:E2; [|discriminate].
  intros H1 H2.
  assert (Hc : c <> Gt) by (intros ->; discriminate).
  assert (Hc' : c' <> Gt) by (intros ->; discriminate).
  destruct (SFcompare_le_le _ _ _ c c' E1 Hc E2 Hc') as (c'' & -> & Hc'').
  destruct c''; congruence.
Qed.

Lemma leb_ltb_false x y : (x <=? y) = true -> (y <? x) = false.
Proof.
  rewrite leb_spec, ltb_spec. unfold SFleb, SFltb.
  destruct (SFcompare (Prim2SF x) (Prim2SF y)) as [c|] eqn:E; [|discriminate].
  rewrite (SFcompare_opp _ _ _ E). destruct c; simpl; congruence.
Qed.

Lemma ltb_false_leb x y :
  is_nan x = false -> is_nan y = false -> (x <? y) = false -> (y <=? x) = true.
Proof.
  intros Hx Hy. rewrite leb_spec, ltb_spec. unfold SFleb, SFltb.
  pose proof (SFcompare_defined _ _ (is_nan_compare x Hx) (is_nan_compare y Hy)) as D.
  destruct (SFcompare (Prim2SF x) (Prim2SF y)) as [c|] eqn:E; [|congruence].
  rewrite (SFcompare_opp _ _ _ E). destruct c; simpl; congruence.
Qed.

Lemma leb_refl x : is_nan x = false -> (x <=? x) = true.
Proof.
  intros Hx. rewrite leb_spec. unfold SFleb.
  pose proof (is_nan_compare x Hx) as D.
  destruct (SFcompare (Prim2SF x) (Prim2SF x)) as [c|] eqn:E; [|congruence].
  now rewrite (SFcompare_self _ _ E).
Qed.

(** ** [fpeq] is symmetric, and reflexive on finite numbers *)

Lemma SFabs_binary_round_aux s m e l :
  SFabs (binary_round_aux prec emax s m e l)
  = SFabs (binary_round_aux prec emax false m e l).
Proof.
  unfold binary_round_aux.
  destruct (shr_fexp prec emax m e l) as [mrs' e'].
  destruct (shr_fexp prec emax _ e' loc_Exact) as [mrs'' e''].
  destruct (shr_m mrs''); try reflexivity.
  destruct (Z.leb e'' _); reflexivity.
Qed.

Lemma SFabs_binary_normalize z e :
  SFabs (binary_normalize prec emax (- z) e false)
  = SFabs (binary_normalize prec emax z e false).
Proof.
  destruct z as [|m|m]; simpl; try reflexivity; unfold binary_round;
    destruct (shl_align _ _ _) as [mz ez];
    rewrite (SFabs_binary_round_aux true); reflexivity.
Qed.

Lemma SFabs_SFsub_sym x y : SFabs (SF64sub x y) = SFabs (SF64sub y x).
Proof.
  destruct x as [sx|sx| |sx mx ex], y as [sy|sy| |sy my ey];
    try (destruct sx); try (destruct sy); try reflexivity.
  all: unfold SF64sub, SFsub; rewrite (Z.min_comm ey ex);
    rewrite <- SFabs_binary_normalize; f_equal; f_equal; simpl cond_Zopp; lia.
Qed.

Lemma fpeq_sym x y : fpeq x y = fpeq y x.
Proof.
  unfold fpeq. rewrite !ltb_spec, !abs_spec, !sub_spec.
  now rewrite SFabs_SFsub_sym.
Qed.

Lemma Prim2SF_finite x :
  is_finite x = true ->
  (exists s, Prim2SF x = S754_zero s) \/ (exists s m e, Prim2SF x = S754_finite s m e).
Proof.
  unfold is_finite, is_nan, is_infinity.
  rewrite !eqb_spec, abs_spec.
  destruct (Prim2SF x) as [s|s| |s m e]; intros H; eauto.
  - destruct s; vm_compute in H; discriminate.
  - vm_compute in H; discriminate.
Qed.

Lemma shl_align_same m e : shl_align m e e = (m, e).
Proof. unfold shl_align. now rewrite Z.sub_diag. Qed.

Lemma fpeq_refl x : is_finite x = true -> fpeq x x = true.
Proof.
  intros H. unfold fpeq. rewrite ltb_spec, abs_spec, sub_spec.
  destruct (Prim2SF_finite x H) as [[s ->]|(s & m & e & ->)].
  - destruct s; reflexivity.
  - unfold SF64sub, SFsub. rewrite Z.min_id, shl_align_same. simpl fst.
    rewrite Z.sub_diag. reflexivity.
Qed.

(** ** Insertion: [vector_create] *)

Lemma vector_create_rejected vectors a b c d :
  existsb (fun p => rejects p a b c d) vectors = true ->
  vector_create vectors a b c d = vectors.
Proof.
  induction vectors as [|p rest IH]; simpl; [discriminate|].
  destruct (rejects p a b c d); simpl; [reflexivity|].
  intros H. now rewrite IH.
Qed.

Lemma vector_create_appended vectors a b c d :
  existsb (fun p => rejects p a b c d) vectors = false ->
  vector_create vectors a b c d = vectors ++ [mkVector a b c d].
Proof.
  induction vectors as [|p rest IH]; simpl; [reflexivity|].
  destruct (rejects p a b c d); simpl; [discriminate|].
  intros H. now rewrite IH.
Qed.

Lemma rejects_swap p a b c d : rejects p c d a b = rejects p a b c d.
Proof.
  unfold rejects.
  change (same_as p c d a b) with (reverse_of p a b c d).
  change (reverse_of p c d a b) with (same_as p a b c d).
  assert (Z : zero_length c d a b = zero_length a b c d).
  { unfold zero_length. now rewrite (fpeq_sym c a), (fpeq_sym d b). }
  rewrite Z.
  destruct (same_as p a b c d), (reverse_of p a b c d); reflexivity.
Qed.

Lemma existsb_rejects_swap vectors a b c d :
  existsb (fun p => rejects p c d a b) vectors
  = existsb (fun p => rejects p a b c d) vectors.
Proof.
  induction vectors as [|p rest IH]; simpl; [reflexivity|].
  now rewrite rejects_swap, IH.
Qed.

Lemma rejects_itself a b c d :
  is_finite a = true -> is_finite b = true ->
  is_finite c = true -> is_finite d = true ->
  rejects (mkVector a b c d) a b c d = true.
Proof.
  intros Ha Hb Hc Hd. unfold rejects, same_as. simpl.
  now rewrite !fpeq_refl.
Qed.

Lemma existsb_rejects_after vectors a b c d :
  is_finite a = true -> is_finite b = true ->
  is_finite c = true -> is_finite d = true ->
  existsb (fun p => rejects p a b c d) (vector_create vectors a b c d) = true.
Proof.
  intros Ha Hb Hc Hd.
  destruct (existsb (fun p => rejects p a b c d) vectors) eqn:E.
  - now rewrite vector_create_rejected.
  - rewrite vector_create_appended by assumption.
    rewrite existsb_app. simpl.
    rewrite rejects_itself by assumption. apply orb_true_r.
Qed.

(** On a list that has a member already, a zero-length segment is turned
    away: this is the test the source places inside its loop. *)
Lemma vector_create_zero_length_nonempty p rest x y :
  is_finite x = true -> is_finite y = true ->
  vector_create (p :: rest) x y x y = p :: rest.
Proof.
  intros Hx Hy. apply vector_create_rejected. simpl.
  unfold rejects, zero_length. rewrite !fpeq_refl by assumption.
  destruct (same_as p x y x y), (reverse_of p x y x y); reflexivity.
Qed.

(** An infinite coordinate is not within [eps] of itself (the difference is
    NaN), so such a segment is not recognised when it comes again. *)
Example vector_create_infinite_twice :
  vector_create (vector_create [] infinity 2 3 3) infinity 2 3 3
  = [mkVector infinity 2 3 3; mkVector infinity 2 3 3].
Proof. vm_compute. reflexivity. Qed.

(** C2 (the code at the failing input).  The zero-length test of
    [vector_create] is inside the loop over the members, so it is never
    reached on the empty list: for every point (x, y) the segment from (x, y)
    to (x, y) is appended to the empty list, whose size grows from 0 to 1. *)
Theorem vector_create_empty_zero_length x y :
  vector_create [] x y x y = [mkVector x y x y] /\
  length (vector_create [] x y x y) = S (length (@nil vector_t)).
Proof. split; reflexivity. Qed.

(** C6.  Inserting a segment with finite coordinates a second time, in the
    same or in the reverse direction, changes nothing, whatever the list held
    before; and starting from the empty list the result is the list of that
    one segment. *)
Theorem vector_create_idempotent vectors ax ay bx by_ :
  is_finite ax = true -> is_finite ay = true ->
  is_finite bx = true -> is_finite by_ = true ->
  vector_create (vector_create vectors ax ay bx by_) ax ay bx by_
    = vector_create vectors ax ay bx by_ /\
  vector_create (vector_create vectors ax ay bx by_) bx by_ ax ay
    = vector_create vectors ax ay bx by_ /\
  (vectors = [] ->
   vector_create (vector_create vectors ax ay bx by_) ax ay bx by_
     = [mkVector ax ay bx by_] /\
   vector_create (vector_create vectors ax ay bx by_) bx by_ ax ay
     = [mkVector ax ay bx by_]).
Proof.
  intros Ha Hb Hc Hd.
  assert (E1 : vector_create (vector_create vectors ax ay bx by_) ax ay bx by_
               = vector_create vectors ax ay bx by_).
  { apply vector_create_rejected, existsb_rejects_after; assumption. }
  assert (E2 : vector_create (vector_create vectors ax ay bx by_) bx by_ ax ay
               = vector_create vectors ax ay bx by_).
  { apply vector_create_rejected.
    rewrite existsb_rejects_swap.
    apply existsb_rejects_after; assumption. }
  repeat split; try assumption.
  - rewrite E1. subst. reflexivity.
  - rewrite E2. subst. reflexivity.
Qed.

Lemma vector_create_idempotent_witness :
  vector_create (vector_create [] 2 2 3 3) 2 2 3 3 = [mkVector 2 2 3 3] /\
  vector_create (vector_create [] 2 2 3 3) 3 3 2 2 = [mkVector 2 2 3 3].
Proof.
  apply (vector_create_idempotent [] 2 2 3 3); reflexivity.
Defined.

(** ** Lists: unlinking a node *)

Lemma unlink_length i l (s : vector_t) :
  nth_error l i = Some s -> S (length (unlink i l)) = length l.
Proof.
  revert i; induction l as [|a l IH]; intros [|i]; simpl; try discriminate.
  - reflexivity.
  - intros H. now rewrite (IH i H).
Qed.

Lemma unlink_perm i l s :
  nth_error l i = Some s -> Permutation (s :: unlink i l) l.
Proof.
  revert i; induction l as [|a l IH]; intros [|i]; simpl; try discriminate.
  - intros [= ->]. reflexivity.
  - intros H. rewrite perm_swap. constructor. now apply IH.
Qed.

Lemma unlink_incl i l s : In s (unlink i l) -> In s l.
Proof.
  revert i; induction l as [|a l IH]; intros [|i]; simpl; auto.
  intros [->|H]; eauto.
Qed.

Lemma unlink_split i l s :
  nth_error l i = Some s -> unlink i l = firstn i l ++ skipn (S i) l.
Proof.
  revert i; induction l as [|a l IH]; intros [|i]; simpl; try discriminate.
  - reflexivity.
  - intros H. f_equal. now apply IH.
Qed.

(** ** The search of [vector_find_closest] *)

Section Closest.

Variables cx cy : float.

Lemma closest_scan_out_of_reach v :
  (forall s, In s v ->
     (sqdist cx cy (x1 s) (y1 s) <? 1e9) = false /\
     (sqdist cx cy (x2 s) (y2 s) <? 1e9) = false) ->
  forall i, closest_scan cx cy i v closest_init = closest_init.
Proof.
  induction v as [|s rest IH]; intros H i; simpl; [reflexivity|].
  destruct (H s (or_introl eq_refl)) as [HA HB].
  unfold closest_step. simpl. rewrite HA. simpl. rewrite HB.
  apply IH. intros t Ht. apply H. now right.
Qed.

(** The four ways through one turn of the loop. *)
Lemma closest_step_cases i s c :
  let d1 := sqdist cx cy (x1 s) (y1 s) in
  let d2 := sqdist cx cy (x2 s) (y2 s) in
  ((d1 <? best_dist c) = true /\ (d2 <? d1) = true /\
   closest_step cx cy i s c = mkClosest d2 (Some (i, s)) true) \/
  ((d1 <? best_dist c) = true /\ (d2 <? d1) = false /\
   closest_step cx cy i s c = mkClosest d1 (Some (i, s)) false) \/
  ((d1 <? best_dist c) = false /\ (d2 <? best_dist c) = true /\
   closest_step cx cy i s c = mkClosest d2 (Some (i, s)) true) \/
  ((d1 <? best_dist c) = false /\ (d2 <? best_dist c) = false /\
   closest_step cx cy i s c = c).
Proof.
  intros d1 d2. unfold closest_step. fold d1 d2.
  destruct (d1 <? best_dist c) eqn:E1; cbn [best_dist].
  - destruct (d2 <? d1) eqn:E2; auto.
  - destruct (d2 <? best_dist c) eqn:E2; auto 6.
Qed.

Ltac step_cases i s c :=
  destruct (closest_step_cases i s c) as
    [(?E1 & ?E2 & ->)|[(?E1 & ?E2 & ->)|[(?E1 & ?E2 & ->)|(?E1 & ?E2 & ->)]]].

(** The node kept in [best] is the node of the list at that position. *)
Lemma closest_scan_best_node v :
  forall pre c,
    (forall j s, best c = Some (j, s) -> nth_error (pre ++ v) j = Some s) ->
    forall j s, best (closest_scan cx cy (length pre) v c) = Some (j, s) ->
                nth_error (pre ++ v) j = Some s.
Proof.
  induction v as [|a rest IH]; intros pre c Hc j s; simpl; [apply Hc|].
  replace (S (length pre)) with (length (pre ++ [a]))
    by (rewrite length_app; simpl; lia).
  replace (pre ++ a :: rest) with ((pre ++ [a]) ++ rest) in *
    by (rewrite <- app_assoc; reflexivity).
  apply IH. intros j' s'.
  assert (Here : nth_error ((pre ++ [a]) ++ rest) (length pre) = Some a).
  { rewrite <- app_assoc. rewrite nth_error_app2 by lia.
    now rewrite Nat.sub_diag. }
  step_cases (length pre) a c; simpl; intros Hb;
    try (injection Hb as <- <-; exact Here); now apply Hc.
Qed.

Lemma closest_scan_first_min v :
  forall i c,
    (best_dist (closest_scan cx cy i v c), matched (closest_scan cx cy i v c))
    = first_min (2 * i)%nat (endpoint_dists cx cy v) (best_dist c) (matched c).
Proof.
  induction v as [|a rest IH]; intros i c; [reflexivity|].
  cbn [closest_scan endpoint_dists flat_map app first_min].
  rewrite IH. replace (2 * S i)%nat with (S (S (2 * i))) by lia.
  step_cases i a c; rewrite E1; cbn [best_dist]; rewrite E2; reflexivity.
Qed.

Lemma closest_step_keeps i s c :
  best c <> None -> best (closest_step cx cy i s c) <> None.
Proof.
  intros H. step_cases i s c; simpl; try discriminate; exact H.
Qed.

Lemma closest_scan_keeps v :
  forall i c, best c <> None -> best (closest_scan cx cy i v c) <> None.
Proof.
  induction v as [|s rest IH]; intros i c H; simpl; [exact H|].
  apply IH, closest_step_keeps, H.
Qed.

Lemma closest_step_seed i s c :
  (best c = None -> best_dist c = 1e9) ->
  best (closest_step cx cy i s c) = None ->
  best_dist (closest_step cx cy i s c) = 1e9.
Proof.
  intros H. step_cases i s c; simpl; try discriminate; exact H.
Qed.

Lemma closest_step_reach i s c :
  (best c = None -> best_dist c = 1e9) ->
  in_reach (cx, cy) s ->
  best (closest_step cx cy i s c) <> None.
Proof.
  unfold in_reach. cbn [fst snd]. intros H R.
  step_cases i s c; simpl; try discriminate.
  intros N. rewrite (H N) in *. destruct R; congruence.
Qed.

Lemma closest_scan_reach v :
  forall i c,
    (best c = None -> best_dist c = 1e9) ->
    Exists (in_reach (cx, cy)) v ->
    best (closest_scan cx cy i v c) <> None.
Proof.
  induction v as [|s rest IH]; intros i c H E; simpl.
  - inversion E.
  - inversion E as [? ? R|? ? R]; subst.
    + apply closest_scan_keeps, closest_step_reach; assumption.
    + apply IH; [|exact R]. apply closest_step_seed, H.
Qed.

(** What every successful call hands back: a node of the list, as it was or
    flipped, and the list without that node. *)
Lemma vector_find_closest_node v b rest :
  vector_find_closest v cx cy = Some (b, rest) ->
  exists i s,
    nth_error v i = Some s /\ rest = unlink i v /\
    best (closest_scan cx cy 0 v closest_init) = Some (i, s) /\
    b = (if do_reverse (closest_scan cx cy 0 v closest_init)
         then reversed s else s).
Proof.
  unfold vector_find_closest.
  destruct (best (closest_scan cx cy 0 v closest_init)) as [[i s]|] eqn:E;
    [|discriminate].
  intros [= <- <-]. exists i, s. repeat split.
  apply (closest_scan_best_node v [] closest_init); [discriminate|exact E].
Qed.

Lemma vector_find_closest_reach v :
  Exists (in_reach (cx, cy)) v ->
  exists b rest, vector_find_closest v cx cy = Some (b, rest).
Proof.
  intros E. unfold vector_find_closest.
  pose proof (closest_scan_reach v 0 closest_init (fun _ => eq_refl) E) as N.
  destruct (best (closest_scan cx cy 0 v closest_init)) as [[i s]|];
    [eauto|congruence].
Qed.

End Closest.

(** ** The least distance, first met *)

Lemma ltb_irrefl_of x y : (x <? y) = true -> (x <? x) = false.
Proof.
  intros H. apply leb_ltb_false, leb_refl, (ltb_is_nan_l x y H).
Qed.

Lemma not_ltb_below x b d : (x <? b) = false -> (d <? b) = true -> (x <? d) = false.
Proof.
  intros Hx Hd. destruct (x <? d) eqn:E; [|reflexivity].
  rewrite (ltb_trans _ _ _ E Hd) in Hx. discriminate.
Qed.

Lemma not_leb_below x b d : (x <? b) = false -> (d <? b) = true -> (x <=? d) = false.
Proof.
  intros Hx Hd. destruct (x <=? d) eqn:E; [|reflexivity].
  rewrite (leb_ltb_trans _ _ _ E Hd) in Hx. discriminate.
Qed.

Lemma first_min_spec ds :
  forall pre m sel m' sel',
    first_min (length pre) ds m sel = (m', sel') ->
    (forall d, In d pre -> (d <? m) = false) ->
    (forall e, sel = Some e ->
       nth_error pre e = Some m /\
       forall j d, (j < e)%nat -> nth_error pre j = Some d -> (d <=? m) = false) ->
    (forall d, In d (pre ++ ds) -> (d <? m') = false) /\
    (forall e, sel' = Some e ->
       nth_error (pre ++ ds) e = Some m' /\
       forall j d, (j < e)%nat -> nth_error (pre ++ ds) j = Some d ->
                   (d <=? m') = false).
Proof.
  induction ds as [|d r IH]; intros pre m sel m' sel' F H1 H2.
  - simpl in F. injection F as <- <-. rewrite app_nil_r. split; assumption.
  - simpl in F.
    replace (S (length pre)) with (length (pre ++ [d])) in F
      by (rewrite length_app; simpl; lia).
    replace (pre ++ d :: r) with ((pre ++ [d]) ++ r)
      by (rewrite <- app_assoc; reflexivity).
    destruct (d <? m) eqn:E; apply (IH _ _ _ _ _ F).
    + intros x Hx. apply in_app_or in Hx. destruct Hx as [Hx|[<-|[]]].
      * apply (not_ltb_below x m d); auto.
      * apply (ltb_irrefl_of d m E).
    + intros e [= <-]. split.
      * rewrite nth_error_app2 by lia. now rewrite Nat.sub_diag.
      * intros j x Hj Hn. rewrite nth_error_app1 in Hn by lia.
        apply (not_leb_below x m d); auto.
        apply H1. eapply nth_error_In, Hn.
    + intros x Hx. apply in_app_or in Hx. destruct Hx as [Hx|[<-|[]]]; auto.
    + intros e He. destruct (H2 e He) as [Hn Hlt].
      assert (e < length pre)%nat by (apply nth_error_Some; congruence).
      split.
      * rewrite nth_error_app1 by lia. exact Hn.
      * intros j x Hj Hx. rewrite nth_error_app1 in Hx by lia. eauto.
Qed.

Lemma nth_error_endpoint_dists cx cy v :
  forall i s,
    nth_error v i = Some s ->
    nth_error (endpoint_dists cx cy v) (2 * i)
      = Some (sqdist cx cy (x1 s) (y1 s)) /\
    nth_error (endpoint_dists cx cy v) (S (2 * i))
      = Some (sqdist cx cy (x2 s) (y2 s)).
Proof.
  induction v as [|a rest IH]; intros [|i] s; simpl; try discriminate.
  - intros [= ->]. split; reflexivity.
  - intros H. replace (i + S (i + 0))%nat with (S (2 * i)) by lia.
    simpl. apply IH, H.
Qed.

(** C3.  When [vector_find_closest] hands back a node [b], leaving [rest]:
    [b] is the node [s] found at some position [i] of the list, [rest] is the
    list with that position unlinked, and there is an end point, numbered [e]
    in the order of the search, such that: [b] is [s] itself when [e] is end A
    of [s], and [s] flipped when [e] is end B; the squared distance of [e] is
    that of end A of [b]; no end point of any member is strictly closer; and
    every end point met before [e] is strictly farther (or not comparable),
    which is first-met-wins among equally close ends. *)
Theorem vector_find_closest_spec v cx cy b rest :
  vector_find_closest v cx cy = Some (b, rest) ->
  exists i s e,
    nth_error v i = Some s /\
    rest = unlink i v /\
    ((e = (2 * i)%nat /\ b = s) \/ (e = S (2 * i) /\ b = reversed s)) /\
    nth_error (endpoint_dists cx cy v) e = Some (sqdist cx cy (x1 b) (y1 b)) /\
    (forall d, In d (endpoint_dists cx cy v) ->
               (d <? sqdist cx cy (x1 b) (y1 b)) = false) /\
    (forall j d, (j < e)%nat -> nth_error (endpoint_dists cx cy v) j = Some d ->
                 (d <=? sqdist cx cy (x1 b) (y1 b)) = false).
Proof.
  intros F.
  destruct (vector_find_closest_node cx cy v b rest F) as (i & s & Hn & Hr & Hb & Hf).
  pose proof (closest_scan_first_min cx cy v 0 closest_init) as M.
  set (c := closest_scan cx cy 0 v closest_init) in *.
  symmetry in M.
  destruct (first_min_spec (endpoint_dists cx cy v) [] _ _ _ _ M) as [Hmin Hfirst].
  { intros d []. }
  { discriminate. }
  simpl in Hmin, Hfirst.
  destruct (nth_error_endpoint_dists cx cy v i s Hn) as [HA HB].
  unfold matched in Hfirst. rewrite Hb in Hfirst.
  exists i, s, (if do_reverse c then S (2 * i) else (2 * i)%nat).
  destruct (Hfirst _ eq_refl) as [He Hlt].
  assert (D : best_dist c = sqdist cx cy (x1 b) (y1 b)).
  { subst b. destruct (do_reverse c); simpl; congruence. }
  rewrite <- D.
  repeat split; auto.
  subst b. destruct (do_reverse c); auto.
Qed.

Lemma vector_find_closest_spec_witness :
  exists i s e,
    nth_error [mkVector 5 6 5 5; mkVector 5 5 6 5] i = Some s /\
    [mkVector 5 5 6 5] = unlink i [mkVector 5 6 5 5; mkVector 5 5 6 5] /\
    ((e = (2 * i)%nat /\ mkVector 5 5 5 6 = s) \/
     (e = S (2 * i) /\ mkVector 5 5 5 6 = reversed s)) /\
    nth_error (endpoint_dists 1 1 [mkVector 5 6 5 5; mkVector 5 5 6 5]) e
      = Some (sqdist 1 1 (x1 (mkVector 5 5 5 6)) (y1 (mkVector 5 5 5 6))) /\
    (forall d, In d (endpoint_dists 1 1 [mkVector 5 6 5 5; mkVector 5 5 6 5]) ->
               (d <? sqdist 1 1 (x1 (mkVector 5 5 5 6)) (y1 (mkVector 5 5 5 6)))
               = false) /\
    (forall j d, (j < e)%nat ->
       nth_error (endpoint_dists 1 1 [mkVector 5 6 5 5; mkVector 5 5 6 5]) j
         = Some d ->
       (d <=? sqdist 1 1 (x1 (mkVector 5 5 5 6)) (y1 (mkVector 5 5 5 6)))
       = false).
Proof.
  apply (vector_find_closest_spec [mkVector 5 6 5 5; mkVector 5 5 6 5] 1 1).
  vm_compute. reflexivity.
Defined.

(** ** [vector_optimize] *)

(** The length of the input is fuel enough: the loop never runs out. *)
Lemma optimize_loop_fuel fuel :
  forall vectors vs cx cy,
    (length vectors <= fuel)%nat ->
    optimize_loop fuel vectors vs cx cy <> OutOfFuel.
Proof.
  induction fuel as [|fuel IH]; intros [|s0 r] vs cx cy L; simpl in *;
    try discriminate; try lia.
  destruct (vector_find_closest (s0 :: r) cx cy) as [[b rest]|] eqn:F;
    [|discriminate].
  destruct (vector_find_closest_node _ _ _ _ _ F) as (i & s & Hn & -> & _).
  apply IH. pose proof (unlink_length _ _ _ Hn) as U. simpl in U. lia.
Qed.

Lemma vector_optimize_fuel vectors cx cy :
  vector_optimize vectors cx cy <> OutOfFuel.
Proof. apply optimize_loop_fuel. lia. Qed.

Lemma optimize_loop_end fuel :
  forall vectors vs cx cy vs' ex ey,
    optimize_loop fuel vectors vs cx cy = Returned (vs', ex, ey) ->
    (vectors = [] /\ vs' = vs /\ ex = cx /\ ey = cy) \/
    (vectors <> [] /\
     exists front v, vs' = front ++ [v] /\ ex = x2 v /\ ey = y2 v).
Proof.
  induction fuel as [|fuel IH]; intros [|s0 r] vs cx cy vs' ex ey; simpl;
    try discriminate.
  - intros [= <- <- <-]. auto.
  - intros [= <- <- <-]. auto.
  - destruct (vector_find_closest (s0 :: r) cx cy) as [[b rest]|];
      [|discriminate].
    intros H. right. split; [discriminate|].
    destruct (IH _ _ _ _ _ _ _ H) as [(_ & -> & -> & ->)|(_ & R)]; eauto.
Qed.

(** C5.  When [vector_optimize] returns, the position it leaves in its two
    pointers is end B of the last node of the list it built; when the input
    list was empty, so is the list built, and the position is the one the
    caller supplied.  (The call returns unless it aborts; it never runs out
    of fuel, see [vector_optimize_fuel].) *)
Theorem vector_optimize_end vectors cx cy vs ex ey :
  vector_optimize vectors cx cy = Returned (vs, ex, ey) ->
  (vectors = [] /\ vs = [] /\ ex = cx /\ ey = cy) \/
  (vectors <> [] /\
   exists front v, vs = front ++ [v] /\ ex = x2 v /\ ey = y2 v).
Proof. apply optimize_loop_end. Qed.

Lemma vector_optimize_end_witness :
  (scenario = [] /\
   [mkVector 0 0 1 0; mkVector 1 0 1 1; mkVector 5 5 5 6] = [] /\
   5 = 0 /\ 6 = 0) \/
  (scenario <> [] /\
   exists front v,
     [mkVector 0 0 1 0; mkVector 1 0 1 1; mkVector 5 5 5 6] = front ++ [v] /\
     5 = x2 v /\ 6 = y2 v).
Proof.
  apply (vector_optimize_end scenario 0 0
           [mkVector 0 0 1 0; mkVector 1 0 1 1; mkVector 5 5 5 6] 5 6).
  vm_compute. reflexivity.
Defined.

Lemma same_stroke_pick (c : bool) (s : vector_t) :
  same_stroke (if c then reversed s else s) s.
Proof. destruct c; [right|left]; reflexivity. Qed.

Lemma endpoints_in s v :
  In s v -> In (x1 s, y1 s) (endpoints v) /\ In (x2 s, y2 s) (endpoints v).
Proof.
  intros H. unfold endpoints. split; apply in_flat_map; exists s; simpl; auto.
Qed.

Lemma endpoints_incl v w p :
  (forall s, In s v -> In s w) -> In p (endpoints v) -> In p (endpoints w).
Proof.
  unfold endpoints. intros I H. apply in_flat_map in H. destruct H as (s & Hs & Hp).
  apply in_flat_map. exists s. auto.
Qed.

Lemma optimize_loop_complete fuel :
  forall vectors vs cx cy,
    (length vectors <= fuel)%nat ->
    (forall p s, In p ((cx, cy) :: endpoints vectors) -> In s vectors ->
                 in_reach p s) ->
    exists tail ex ey,
      optimize_loop fuel vectors vs cx cy = Returned (vs ++ tail, ex, ey) /\
      same_strokes tail vectors.
Proof.
  induction fuel as [|fuel IH]; intros [|s0 r] vs cx cy L R; simpl in L;
    try lia.
  - exists [], cx, cy. simpl. rewrite app_nil_r. split; [reflexivity|].
    exists []. split; constructor.
  - exists [], cx, cy. simpl. rewrite app_nil_r. split; [reflexivity|].
    exists []. split; constructor.
  - cbn [optimize_loop].
    destruct (vector_find_closest_reach cx cy (s0 :: r)) as (b & rest & F).
    { apply Exists_cons_hd. apply R; simpl; auto. }
    rewrite F.
    destruct (vector_find_closest_node _ _ _ _ _ F) as (i & s & Hn & -> & _ & Hb).
    assert (Hs : In s (s0 :: r)) by (eapply nth_error_In, Hn).
    assert (Sb : same_stroke b s) by (rewrite Hb; apply same_stroke_pick).
    destruct (IH (unlink i (s0 :: r)) (vs ++ [b]) (x2 b) (y2 b))
      as (tail & ex & ey & E & l & Pl & Fl).
    + pose proof (unlink_length _ _ _ Hn) as U. simpl in U. lia.
    + intros p t Hp Ht. apply R.
      * right. destruct Hp as [<-|Hp].
        -- destruct (endpoints_in s _ Hs) as [EA EB].
           destruct Sb as [->| ->]; simpl; assumption.
        -- eapply endpoints_incl; [|exact Hp]. intros u. apply unlink_incl.
      * eapply unlink_incl, Ht.
    + exists (b :: tail), ex, ey. split.
      * rewrite E. rewrite <- app_assoc. reflexivity.
      * exists (s :: l). split.
        -- rewrite Pl. apply unlink_perm, Hn.
        -- constructor; assumption.
Qed.

Lemma same_strokes_length chain store :
  same_strokes chain store -> length chain = length store.
Proof.
  intros (l & P & F). rewrite <- (Permutation_length P).
  apply (Forall2_length F).
Qed.

(** C1.  If every member of the list has an end point within the search
    radius of the start position and of every end point of every member (the
    positions the pen can be at), then [vector_optimize] returns, the list it
    built is as long as the input, and it holds the strokes of the input,
    each once and each in one of its two directions. *)
Theorem vector_optimize_complete vectors cx cy :
  (forall p s, In p ((cx, cy) :: endpoints vectors) -> In s vectors ->
               in_reach p s) ->
  exists vs ex ey,
    vector_optimize vectors cx cy = Returned (vs, ex, ey) /\
    length vs = length vectors /\
    same_strokes vs vectors.
Proof.
  intros R.
  destruct (optimize_loop_complete (length vectors) vectors [] cx cy (le_n _) R)
    as (tail & ex & ey & E & S).
  exists tail, ex, ey. split; [exact E|]. split; [|exact S].
  apply same_strokes_length, S.
Qed.

Lemma vector_optimize_complete_witness :
  exists vs ex ey,
    vector_optimize scenario 0 0 = Returned (vs, ex, ey) /\
    length vs = length scenario /\
    same_strokes vs scenario.
Proof.
  apply (vector_optimize_complete scenario 0 0).
  intros p s Hp Hs. simpl in Hp, Hs.
  repeat (destruct Hp as [<-|Hp];
          [repeat (destruct Hs as [<-|Hs]; [left; vm_compute; reflexivity|]);
           destruct Hs|]).
  destruct Hp.
Defined.

(** C10.  A non-empty list whose every end point is at squared distance at
    least [1e9] from the position searched from: [vector_find_closest] hands
    back [NULL] although the list is not empty, and [vector_optimize], which
    calls it because the list is not empty, aborts. *)
Theorem vector_find_closest_null_nonempty v cx cy :
  v <> [] ->
  (forall s, In s v ->
     (1e9 <=? sqdist cx cy (x1 s) (y1 s)) = true /\
     (1e9 <=? sqdist cx cy (x2 s) (y2 s)) = true) ->
  vector_find_closest v cx cy = None /\
  vector_optimize v cx cy = Aborted.
Proof.
  intros N H.
  assert (F : vector_find_closest v cx cy = None).
  { unfold vector_find_closest. rewrite closest_scan_out_of_reach; [reflexivity|].
    intros s Hs. destruct (H s Hs). split; apply leb_ltb_false; assumption. }
  split; [exact F|].
  unfold vector_optimize. destruct v as [|s0 r]; [congruence|].
  cbn [length optimize_loop]. now rewrite F.
Qed.

Lemma vector_find_closest_null_nonempty_witness :
  vector_find_closest [mkVector 100000 0 100000 1] 0 0 = None /\
  vector_optimize [mkVector 100000 0 100000 1] 0 0 = Aborted.
Proof.
  apply vector_find_closest_null_nonempty.
  - discriminate.
  - intros s [<-|[]]. split; vm_compute; reflexivity.
Defined.

(** ** [vector_stats] and [vector_transit_len] *)

Lemma stats_loop_transits v :
  forall lx ly st,
    transit_len_sum (stats_loop v lx ly st)
    = fold_left add (nonzero (transits_from lx ly v)) (transit_len_sum st) /\
    transits (stats_loop v lx ly st)
    = (transits st + Z.of_nat (length (nonzero (transits_from lx ly v))))%Z.
Proof.
  induction v as [|s rest IH]; intros lx ly st.
  - simpl. split; [reflexivity|lia].
  - cbn [stats_loop transits_from nonzero filter].
    destruct (IH (x2 s) (y2 s)
      (let st1 :=
         if negb (euclid (lx - x1 s) (ly - y1 s) =? 0)
         then mkStats (cuts st) (cut_len_sum st) (transits st + 1)
                (transit_len_sum st + euclid (lx - x1 s) (ly - y1 s))
         else st in
       if negb (euclid (x1 s - x2 s) (y1 s - y2 s) =? 0)
       then mkStats (cuts st1 + 1)
              (cut_len_sum st1 + euclid (x1 s - x2 s) (y1 s - y2 s))
              (transits st1) (transit_len_sum st1)
       else st1)) as [IH1 IH2].
    cbv zeta in IH1, IH2. rewrite IH1, IH2. fold (nonzero (transits_from (x2 s) (y2 s) rest)).
    destruct (negb (euclid (lx - x1 s) (ly - y1 s) =? 0));
      destruct (negb (euclid (x1 s - x2 s) (y1 s - y2 s) =? 0));
      cbn [transit_len_sum transits fold_left length]; split; try reflexivity; lia.
Qed.

Lemma transit_len_loop_sum v :
  forall lx ly acc,
    transit_len_loop v lx ly acc
    = fold_left add (nonzero (transits_from lx ly v)) acc.
Proof.
  induction v as [|s rest IH]; intros lx ly acc; [reflexivity|].
  cbn [transit_len_loop transits_from nonzero filter]. cbv zeta. rewrite IH.
  fold (nonzero (transits_from (x2 s) (y2 s) rest)).
  destruct (negb (euclid (lx - x1 s) (ly - y1 s) =? 0)); reflexivity.
Qed.

(** C9, as the code has it.  The transit length of [vector_stats] (and of
    [vector_transit_len]) is the sum, taken from the left, of the transits of
    the list traversed from the origin (0, 0): the transit from the origin to
    the start of the first node, then one for each pair of neighbours; the
    transits of length exactly zero are left out of the sum and of the count. *)
Theorem vector_stats_transits v :
  transit_len_sum (vector_stats v) = sum_floats (nonzero (transits_from 0 0 v)) /\
  transits (vector_stats v) = Z.of_nat (length (nonzero (transits_from 0 0 v))) /\
  vector_transit_len v = sum_floats (nonzero (transits_from 0 0 v)) /\
  (forall s rest, v = s :: rest ->
     transits_from 0 0 v = euclid (0 - x1 s) (0 - y1 s) :: pair_transits v).
Proof.
  unfold vector_stats, vector_transit_len, sum_floats.
  destruct (stats_loop_transits v 0 0 (mkStats 0 0 0 0)) as [H1 H2].
  repeat split.
  - exact H1.
  - rewrite H2. simpl. reflexivity.
  - apply transit_len_loop_sum.
  - intros s rest ->. reflexivity.
Qed.

(** C9, as it is worded, fails on a list of one node that does not start at
    the origin: there is no pair of neighbours, so the sum over pairs is 0 and
    counts no transit, while [vector_stats] counts one transit of length 1. *)
Lemma vector_stats_pairs_counterexample :
  transit_len_sum (vector_stats [mkVector 1 0 2 0])
    <> sum_floats (nonzero (pair_transits [mkVector 1 0 2 0])) /\
  transits (vector_stats [mkVector 1 0 2 0])
    <> Z.of_nat (length (nonzero (pair_transits [mkVector 1 0 2 0]))).
Proof.
  split; intros H.
  - apply (f_equal (fun t => t =? 0)) in H. vm_compute in H. discriminate H.
  - vm_compute in H. discriminate H.
Qed.

(** ** [vector_refine]: the closest end before the longest transit *)

Lemma nearest_scan_spec tv v :
  forall pre n,
    (forall t, In t v -> is_nan (end_dist tv t) = false) ->
    is_nan (min_dist n) = false ->
    (forall t, In t pre -> (min_dist n <=? end_dist tv t) = true) ->
    (forall j, closest n = Some j ->
       exists s, nth_error pre j = Some s /\ min_dist n = end_dist tv s /\
         forall i t, (j < i)%nat -> nth_error pre i = Some t ->
                     (min_dist n <? end_dist tv t) = true) ->
    (forall t, In t (pre ++ v) ->
       (min_dist (nearest_scan tv (length pre) v n) <=? end_dist tv t) = true) /\
    (forall j, closest (nearest_scan tv (length pre) v n) = Some j ->
       exists s, nth_error (pre ++ v) j = Some s /\
         min_dist (nearest_scan tv (length pre) v n) = end_dist tv s /\
         forall i t, (j < i)%nat -> nth_error (pre ++ v) i = Some t ->
           (min_dist (nearest_scan tv (length pre) v n) <? end_dist tv t) = true).
Proof.
  induction v as [|a rest IH]; intros pre n Hnan Hm H1 H2.
  - simpl. rewrite app_nil_r. split; assumption.
  - cbn [nearest_scan].
    replace (S (length pre)) with (length (pre ++ [a]))
      by (rewrite length_app; simpl; lia).
    replace (pre ++ a :: rest) with ((pre ++ [a]) ++ rest)
      by (rewrite <- app_assoc; reflexivity).
    assert (Ha : is_nan (end_dist tv a) = false) by (apply Hnan; now left).
    assert (Hrest : forall t, In t rest -> is_nan (end_dist tv t) = false)
      by (intros t Ht; apply Hnan; now right).
    unfold nearest_step.
    destruct (min_dist n <? end_dist tv a) eqn:E; apply IH; auto; cbn [min_dist closest].
    + intros t Ht. apply in_app_or in Ht. destruct Ht as [Ht|[<-|[]]]; auto.
      now apply ltb_leb.
    + intros j Hj. destruct (H2 j Hj) as (s & Hs & Hd & Hlater).
      assert (j < length pre)%nat by (apply nth_error_Some; congruence).
      exists s. repeat split; auto.
      * rewrite nth_error_app1 by lia. exact Hs.
      * intros i t Hi Ht.
        destruct (Nat.lt_ge_cases i (length pre)) as [L|L].
        -- rewrite nth_error_app1 in Ht by lia. eauto.
        -- rewrite nth_error_app2 in Ht by lia.
           destruct (i - length pre)%nat as [|[|?]]; simpl in Ht; try discriminate.
           injection Ht as <-. exact E.
    + pose proof (ltb_false_leb _ _ Hm Ha E) as Le.
      intros t Ht. apply in_app_or in Ht. destruct Ht as [Ht|[<-|[]]].
      * eapply leb_trans; [exact Le|]. auto.
      * now apply leb_refl.
    + intros j [= <-]. exists a. repeat split.
      * rewrite nth_error_app2 by lia. now rewrite Nat.sub_diag.
      * intros i t Hi Ht.
        assert (i < length (pre ++ [a]))%nat by (apply nth_error_Some; congruence).
        rewrite length_app in *. simpl in *. lia.
Qed.

Lemma nearest_scan_bound tv v :
  forall i n,
    (forall j, closest n = Some j -> (j < i)%nat) ->
    forall j, closest (nearest_scan tv i v n) = Some j -> (j < i + length v)%nat.
Proof.
  induction v as [|a rest IH]; intros i n H j; simpl.
  - intros Hj. specialize (H j Hj). lia.
  - intros Hj. apply IH in Hj; [lia|].
    intros j'. unfold nearest_step. destruct (_ <? _); simpl.
    + intros Hc. specialize (H j' Hc). lia.
    + intros [= <-]. lia.
Qed.

Lemma closest_before_lt vector k tv j :
  closest_before vector k tv = Some j -> (j < k)%nat /\ (j < length vector)%nat.
Proof.
  unfold closest_before. intros H.
  apply nearest_scan_bound in H; [|discriminate].
  rewrite length_firstn in H. lia.
Qed.

(** C4, as the code has it.  The second loop of [vector_refine] takes over a
    candidate unless it is strictly farther than the best so far, so among
    equally close candidates the last one met wins: when the distances are
    numbers (none is NaN), the node chosen attains the minimum over the nodes
    before [transit_v], and no later one of them does. *)
Theorem closest_before_last_wins vector k tv j :
  (forall t, In t (firstn k vector) -> is_nan (end_dist tv t) = false) ->
  closest_before vector k tv = Some j ->
  attains_min tv (firstn k vector) j /\
  forall i, (j < i)%nat -> ~ attains_min tv (firstn k vector) i.
Proof.
  intros Hnan Hc. unfold closest_before in Hc.
  destruct (nearest_scan_spec tv (firstn k vector) [] (mkNearest 1e9 None))
    as [Hmin Hsel];
    [exact Hnan | reflexivity | intros t [] | discriminate | ].
  simpl in Hmin, Hsel.
  destruct (Hsel j Hc) as (s & Hs & Hd & Hlater).
  rewrite Hd in *. split.
  - exists s. split; [exact Hs|]. exact Hmin.
  - intros i Hi (t & Ht & Htmin).
    pose proof (Hlater i t Hi Ht) as Lt.
    assert (Hin : In s (firstn k vector)) by (eapply nth_error_In, Hs).
    rewrite (leb_ltb_false _ _ (Htmin s Hin)) in Lt. discriminate.
Qed.

Lemma closest_before_last_wins_witness :
  attains_min (mkVector 1.5 7 1.5 8) (firstn 3 detour) 1 /\
  forall i, (1 < i)%nat -> ~ attains_min (mkVector 1.5 7 1.5 8) (firstn 3 detour) i.
Proof.
  apply (closest_before_last_wins detour 3 (mkVector 1.5 7 1.5 8) 1).
  - intros t Ht. simpl in Ht.
    destruct Ht as [<-|[<-|[<-|[]]]]; vm_compute; reflexivity.
  - vm_compute. reflexivity.
Defined.

(** C4, as it is worded, fails on [detour]: the ends of the nodes 0 and 1 are
    equally far from the start of node 3, and node 1, met last, is chosen. *)
Lemma first_wins_counterexample :
  ~ first_wins detour 3 (mkVector 1.5 7 1.5 8).
Proof.
  intros H.
  assert (C : closest_before detour 3 (mkVector 1.5 7 1.5 8) = Some 1%nat)
    by (vm_compute; reflexivity).
  destruct (H 1%nat C) as [_ H0].
  apply (H0 0%nat); [lia|].
  exists (mkVector 0 0 1 0). split; [reflexivity|].
  intros t Ht. simpl in Ht.
  destruct Ht as [<-|[<-|[<-|[]]]]; vm_compute; reflexivity.
Qed.

(** The same on the whole of [vector_refine]: node 3 is linked in behind node
    1, not behind node 0. *)
Example vector_refine_detour :
  exists ex ey red,
    vector_refine detour 0 0
    = Returned ([mkVector 0 0 1 0; mkVector 1 0 2 0; mkVector 1.5 7 1.5 8;
                 mkVector 2 0 10 0; mkVector 10 1 10 2], ex, ey, red).
Proof. vm_compute. eauto. Qed.

(** ** [vector_refine]: what a call leaves in place *)

Lemma longest_scan_node v :
  forall pre cx cy l,
    (forall k tv, transit_v l = Some (k, tv) -> nth_error (pre ++ v) k = Some tv) ->
    forall k tv,
      transit_v (longest_scan v (length pre) cx cy l) = Some (k, tv) ->
      nth_error (pre ++ v) k = Some tv.
Proof.
  induction v as [|a rest IH]; intros pre cx cy l Hl k tv; simpl; [apply Hl|].
  replace (S (length pre)) with (length (pre ++ [a]))
    by (rewrite length_app; simpl; lia).
  replace (pre ++ a :: rest) with ((pre ++ [a]) ++ rest) in *
    by (rewrite <- app_assoc; reflexivity).
  apply IH. intros k' tv'.
  destruct (negb _ && _); simpl; [|apply Hl].
  intros [= <- <-]. rewrite <- app_assoc. rewrite nth_error_app2 by lia.
  now rewrite Nat.sub_diag.
Qed.

Lemma longest_scan_continuous v :
  forall i cx cy l, continuous v cx cy = true -> longest_scan v i cx cy l = l.
Proof.
  induction v as [|s rest IH]; intros i cx cy l; simpl; [reflexivity|].
  intros H. apply andb_prop in H. destruct H as [Hs Hrest].
  rewrite Hs. simpl. now apply IH.
Qed.

Lemma optimize_loop_strokes fuel :
  forall vectors vs cx cy vs' ex ey,
    optimize_loop fuel vectors vs cx cy = Returned (vs', ex, ey) ->
    exists tail, vs' = vs ++ tail /\ same_strokes tail vectors.
Proof.
  induction fuel as [|fuel IH]; intros [|s0 r] vs cx cy vs' ex ey; simpl;
    try discriminate.
  - intros [= <- <- <-]. exists []. rewrite app_nil_r. split; [reflexivity|].
    exists []. split; constructor.
  - intros [= <- <- <-]. exists []. rewrite app_nil_r. split; [reflexivity|].
    exists []. split; constructor.
  - destruct (vector_find_closest (s0 :: r) cx cy) as [[b rest]|] eqn:F;
      [|discriminate].
    destruct (vector_find_closest_node _ _ _ _ _ F) as (i & s & Hn & -> & _ & Hb).
    intros H. destruct (IH _ _ _ _ _ _ _ H) as (tail & -> & l & Pl & Fl).
    exists (b :: tail). split; [now rewrite <- app_assoc|].
    exists (s :: l). split.
    + rewrite Pl. apply unlink_perm, Hn.
    + constructor; [|exact Fl]. rewrite Hb. apply same_stroke_pick.
Qed.

Lemma firstn_unlink (l : list vector_t) :
  forall n k, (n <= k)%nat -> firstn n (unlink k l) = firstn n l.
Proof.
  induction l as [|a l IH]; intros [|n] [|k] L; simpl; try reflexivity; try lia.
  f_equal. apply IH. lia.
Qed.

Lemma relink_split j k tv tv' vector :
  (j < k)%nat -> nth_error vector k = Some tv' ->
  firstn (S (S j)) (relink_after j tv (unlink k vector))
    = firstn (S j) vector ++ [tv] /\
  skipn (S (S j)) (relink_after j tv (unlink k vector))
    = skipn (S j) (unlink k vector).
Proof.
  intros Hjk Hk. unfold relink_after.
  assert (Hlen : (k < length vector)%nat) by (apply nth_error_Some; congruence).
  pose proof (unlink_length _ _ _ Hk) as U.
  assert (LA : length (firstn (S j) (unlink k vector)) = S j)
    by (rewrite length_firstn; lia).
  split.
  - rewrite firstn_app, LA.
    rewrite firstn_all2 by lia.
    replace (S (S j) - S j)%nat with 1%nat by lia. simpl firstn at 2.
    now rewrite firstn_unlink by lia.
  - rewrite skipn_app, LA.
    rewrite skipn_all2 by lia.
    replace (S (S j) - S j)%nat with 1%nat by lia. reflexivity.
Qed.

(** C7.  When [vector_refine] has found the longest transit, leading to the
    node [tv] of position [k], and the closest earlier node, of position [j],
    and returns: the nodes up to position [j] are the nodes the list had
    there, [tv] follows at position [j + 1] as it was (not flipped), and what
    comes after [tv] holds the strokes of the remaining nodes (those after
    position [j], [tv] apart), in the order and directions the greedy pass
    gave them. *)
Theorem vector_refine_frame vector cx cy k tv j vector' ex ey red :
  transit_v (longest_scan vector 0 cx cy (mkLongest 0 None)) = Some (k, tv) ->
  closest_before vector k tv = Some j ->
  vector_refine vector cx cy = Returned (vector', ex, ey, red) ->
  (j < k)%nat /\
  nth_error vector k = Some tv /\
  firstn (S j) vector' = firstn (S j) vector /\
  nth_error vector' (S j) = Some tv /\
  same_strokes (skipn (S (S j)) vector') (skipn (S j) (unlink k vector)) /\
  length vector' = length vector.
Proof.
  intros HT HC. unfold vector_refine. rewrite HT, HC.
  destruct (closest_before_lt _ _ _ _ HC) as [Hjk Hjl].
  assert (Hk : nth_error vector k = Some tv).
  { apply (longest_scan_node vector [] cx cy (mkLongest 0 None));
      [discriminate|exact HT]. }
  destruct (relink_split j k tv tv vector Hjk Hk) as [Hfront Hback].
  rewrite Hfront, Hback.
  assert (LF : length (firstn (S j) vector) = S j)
    by (rewrite length_firstn; lia).
  remember (firstn (S j) vector) as front eqn:Efront.
  destruct (vector_optimize _ _ _) as [| |[[vs cx2] cy2]] eqn:O; try discriminate.
  intros [= <- <- <- <-].
  unfold vector_optimize in O.
  destruct (optimize_loop_strokes _ _ _ _ _ _ _ _ O) as (tail & Ht & St).
  simpl in Ht. subst tail.
  repeat split; auto.
  - rewrite <- app_assoc. rewrite firstn_app, LF, Nat.sub_diag.
    rewrite firstn_all2 by lia. simpl. now rewrite app_nil_r.
  - rewrite <- app_assoc. rewrite nth_error_app2 by lia.
    rewrite LF, Nat.sub_diag. reflexivity.
  - rewrite <- app_assoc. rewrite skipn_app, LF.
    rewrite skipn_all2 by lia.
    replace (S (S j) - S j)%nat with 1%nat by lia. exact St.
  - rewrite !length_app, LF. simpl.
    rewrite (same_strokes_length _ _ St), length_skipn.
    pose proof (unlink_length _ _ _ Hk).
    assert (k < length vector)%nat by (apply nth_error_Some; congruence).
    lia.
Qed.

Lemma vector_refine_frame_witness :
  exists vector' ex ey red,
    vector_refine detour 0 0 = Returned (vector', ex, ey, red) /\
    (1 < 3)%nat /\
    nth_error detour 3 = Some (mkVector 1.5 7 1.5 8) /\
    firstn 2 vector' = firstn 2 detour /\
    nth_error vector' 2 = Some (mkVector 1.5 7 1.5 8) /\
    same_strokes (skipn 3 vector') (skipn 2 (unlink 3 detour)) /\
    length vector' = length detour.
Proof.
  eexists _, _, _, _. split; [vm_compute; reflexivity|].
  eapply (vector_refine_frame detour 0 0 3 (mkVector 1.5 7 1.5 8) 1);
    vm_compute; reflexivity.
Defined.

(** The only loop of [vector_refine] that needs fuel is the one of
    [vector_optimize], so a call returns or aborts. *)
Lemma vector_refine_fuel vector cx cy : vector_refine vector cx cy <> OutOfFuel.
Proof.
  unfold vector_refine.
  destruct (transit_v _) as [[k tv]|]; [|discriminate].
  destruct (closest_before vector k tv) as [j|]; [|discriminate].
  destruct (vector_optimize _ _ _) as [| |[[vs cx2] cy2]] eqn:O;
    try discriminate.
  now apply vector_optimize_fuel in O.
Qed.

(** ** [vector_refine]: nothing to improve *)

(** C8, as the code has it.  The transits [vector_refine] passes over are
    those whose length, [sqrt(dx*dx + dy*dy)], is within [fpeq] of zero.  On
    a list all of whose transits are such, when it is traversed from the
    position given, [vector_refine] finds no longest transit: it returns 0
    and leaves the list and the two pointers as they were. *)
Theorem vector_refine_continuous vector cx cy :
  continuous vector cx cy = true ->
  vector_refine vector cx cy = Returned (vector, cx, cy, 0).
Proof.
  intros H. unfold vector_refine.
  now rewrite (longest_scan_continuous vector 0 cx cy _ H).
Qed.

Lemma vector_refine_continuous_witness :
  vector_refine [mkVector 0 0 1 0; mkVector 1 0 1 1; mkVector 1 1 5 5] 0 0
  = Returned ([mkVector 0 0 1 0; mkVector 1 0 1 1; mkVector 1 1 5 5], 0, 0, 0).
Proof.
  apply vector_refine_continuous. vm_compute. reflexivity.
Defined.

(** C8, as it is worded, fails on [wobble]: the start of every node is within
    [eps] of the pen on each axis, yet the transit to the last node is longer
    than [eps], so [vector_refine] takes it for the longest transit, links
    the node in behind the first one, sequences the rest anew and returns a
    negative value. *)
Lemma vector_refine_coincident_counterexample :
  coincident wobble 0 0 = true /\
  exists vector' ex ey red,
    vector_refine wobble 0 0 = Returned (vector', ex, ey, red) /\
    vector' <> wobble /\
    (red <? 0) = true.
Proof.
  split; [vm_compute; reflexivity|].
  eexists _, _, _, _. split; [vm_compute; reflexivity|]. split.
  - intros H.
    apply (f_equal (fun l => match nth_error l 1 with
                             | Some s => x2 s =? 5
                             | None => false
                             end)) in H.
    vm_compute in H. discriminate H.
  - vm_compute. reflexivity.
Qed.

(** [wobble] is a list as [vector_optimize] builds them, and one that
    [output_vector] writes as a single line, without an [M]. *)
Example wobble_sequenced :
  vector_optimize wobble 0 0 = Returned (wobble, 7, 7) /\
  output_vector wobble
  = [OutL 1 0; OutL 5 5; OutL 6 6; OutL 0x1.0000002p+0 0x1p-27; OutL 7 7].
Proof. split; vm_compute; reflexivity. Qed.

(** * Further properties *)

(** ** More on binary64: squares of differences *)

Lemma SFcompare_lt_le x y z c :
  SFcompare x y = Some Lt -> SFcompare y z = Some c -> c <> Gt ->
  SFcompare x z = Some Lt.
Proof.
  destruct x as [sx|sx| |sx mx ex], y as [sy|sy| |sy my ey], z as [sz|sz| |sz mz ez];
    simpl; intros H1 H2 Hc; try discriminate;
    try (injection H1 as H1); try (injection H2 as H2); subst; f_equal;
    order_cases.
Qed.

Lemma ltb_leb_trans x y z : (x <? y) = true -> (y <=? z) = true -> (x <? z) = true.
Proof.
  rewrite leb_spec, !ltb_spec. unfold SFleb, SFltb.
  destruct (SFcompare (Prim2SF x) (Prim2SF y)) as [[]|] eqn:E1; try discriminate.
  destruct (SFcompare (Prim2SF y) (Prim2SF z)) as [c|] eqn:E2; [|discriminate].
  intros _ H.
  rewrite (SFcompare_lt_le _ _ _ c E1 E2); [reflexivity|].
  intros ->; discriminate.
Qed.

Lemma SFmul_square_abs d : SF64mul d d = SF64mul (SFabs d) (SFabs d).
Proof. destruct d as [[]|[]| |[] m e]; reflexivity. Qed.

(** [(x - y) * (x - y)] and [(y - x) * (y - x)] are the same double. *)
Lemma square_sub_sym x y : (x - y) * (x - y) = (y - x) * (y - x).
Proof.
  apply Prim2SF_inj. rewrite !mul_spec, !sub_spec.
  rewrite SFmul_square_abs, (SFmul_square_abs (SF64sub (Prim2SF y) (Prim2SF x))).
  now rewrite SFabs_SFsub_sym.
Qed.

Lemma euclid_sym a b c d : euclid (a - b) (c - d) = euclid (b - a) (d - c).
Proof. unfold euclid. now rewrite (square_sub_sym a b), (square_sub_sym c d). Qed.

Lemma end_dist_sqdist tv v : end_dist tv v = sqdist (x1 tv) (y1 tv) (x2 v) (y2 v).
Proof.
  unfold end_dist, sqdist.
  now rewrite (square_sub_sym (x2 v)), (square_sub_sym (y2 v)).
Qed.

(** ** [vector_create]: what an insertion does to the list *)


(** X1.  [vector_create] never removes, alters or reorders a member: either
    some member turns the new segment away and the list is left as it was, or
    none does and the new segment is appended behind the last member. *)
Theorem vector_create_keep_or_append vectors a b c d :
  (existsb (fun p => rejects p a b c d) vectors = true /\
   vector_create vectors a b c d = vectors) \/
  (existsb (fun p => rejects p a b c d) vectors = false /\
   vector_create vectors a b c d = vectors ++ [mkVector a b c d]).
Proof.
  destruct (existsb (fun p => rejects p a b c d) vectors) eqn:E.
  - left. split; [reflexivity|]. now apply vector_create_rejected.
  - right. split; [reflexivity|]. now apply vector_create_appended.
Qed.

Lemma rejects_false p a b c d :
  rejects p a b c d = false ->
  same_as p a b c d = false /\ reverse_of p a b c d = false /\
  zero_length a b c d = false.
Proof.
  unfold rejects.
  destruct (same_as p a b c d), (reverse_of p a b c d), (zero_length a b c d);
    intros H; try discriminate; auto.
Qed.

Lemma existsb_false_nth {A} (f : A -> bool) (l : list A) i x :
  existsb f l = false -> nth_error l i = Some x -> f x = false.
Proof.
  revert i; induction l as [|a l IH]; intros [|i]; simpl; try discriminate.
  - intros H [= <-]. now apply orb_false_elim in H.
  - intros H Hn. apply orb_false_elim in H. apply (IH i); tauto.
Qed.

Lemma store_ok_nil : store_ok [].
Proof. intros [|i] j p q _ H; discriminate H. Qed.

Lemma store_ok_snoc v q :
  store_ok v -> existsb (fun p => rejected_by p q) v = false ->
  store_ok (v ++ [q]).
Proof.
  intros Hv Hq i j p r Hij Hi Hj.
  assert (Lj : (j < length (v ++ [q]))%nat) by (apply nth_error_Some; congruence).
  rewrite length_app in Lj. simpl in Lj.
  rewrite nth_error_app1 in Hi by lia.
  destruct (Nat.eq_dec j (length v)) as [->|Nj].
  - rewrite nth_error_app2, Nat.sub_diag in Hj by lia. injection Hj as <-.
    apply (existsb_false_nth _ _ _ _ Hq Hi).
  - rewrite nth_error_app1 in Hj by lia. apply (Hv i j); assumption.
Qed.

Lemma store_ok_create v a b c d :
  store_ok v -> store_ok (vector_create v a b c d).
Proof.
  intros Hv.
  destruct (existsb (fun p => rejects p a b c d) v) eqn:E.
  - now rewrite vector_create_rejected.
  - rewrite vector_create_appended by assumption.
    apply store_ok_snoc; assumption.
Qed.

(** X2.  The insertion keeps the list free of duplicates: if no member of the
    list is turned away by a member in front of it, the same holds after
    [vector_create], that is, for any two members [p] before [q] of the new
    list, [q] is not [p] again, nor [p] reversed (both within [eps]), and [q]
    is not of zero length. *)
Theorem vector_create_no_duplicates v a b c d i j p q :
  store_ok v ->
  (i < j)%nat ->
  nth_error (vector_create v a b c d) i = Some p ->
  nth_error (vector_create v a b c d) j = Some q ->
  same_as p (x1 q) (y1 q) (x2 q) (y2 q) = false /\
  reverse_of p (x1 q) (y1 q) (x2 q) (y2 q) = false /\
  zero_length (x1 q) (y1 q) (x2 q) (y2 q) = false.
Proof.
  intros Hv Hij Hi Hj.
  apply rejects_false.
  apply (store_ok_create v a b c d Hv i j p q Hij Hi Hj).
Qed.

Lemma vector_create_no_duplicates_witness :
  same_as (mkVector 0 0 1 0) 1 0 1 1 = false /\
  reverse_of (mkVector 0 0 1 0) 1 0 1 1 = false /\
  zero_length 1 0 1 1 = false.
Proof.
  apply (vector_create_no_duplicates [mkVector 0 0 1 0] 1 0 1 1 0 1
           (mkVector 0 0 1 0) (mkVector 1 0 1 1)).
  - intros [|[|i]] [|[|j]] p q Hij Hi Hj; simpl in *; try discriminate; lia.
  - lia.
  - reflexivity.
  - reflexivity.
Defined.

(** ** [vector_find_closest]: when it finds nothing, and what it finds *)

Section ClosestMore.

Variables cx cy : float.

Lemma not_in_reach_all v :
  ~ Exists (in_reach (cx, cy)) v ->
  forall s, In s v ->
    (sqdist cx cy (x1 s) (y1 s) <? 1e9) = false /\
    (sqdist cx cy (x2 s) (y2 s) <? 1e9) = false.
Proof.
  intros N s Hs.
  destruct (sqdist cx cy (x1 s) (y1 s) <? 1e9) eqn:EA.
  - exfalso. apply N. apply Exists_exists. exists s. split; [exact Hs|].
    left. exact EA.
  - destruct (sqdist cx cy (x2 s) (y2 s) <? 1e9) eqn:EB; [|auto].
    exfalso. apply N. apply Exists_exists. exists s. split; [exact Hs|].
    right. exact EB.
Qed.

(** X3.  [vector_find_closest] hands back [NULL] exactly when no end point of
    any member is at squared distance below [1e9] from the position searched
    from; in particular on the empty list. *)
Theorem vector_find_closest_null_iff v :
  vector_find_closest v cx cy = None <->
  forall s, In s v ->
    (sqdist cx cy (x1 s) (y1 s) <? 1e9) = false /\
    (sqdist cx cy (x2 s) (y2 s) <? 1e9) = false.
Proof.
  split.
  - intros N. apply not_in_reach_all. intros E.
    destruct (vector_find_closest_reach cx cy v E) as (b & rest & F).
    congruence.
  - intros H. unfold vector_find_closest.
    now rewrite closest_scan_out_of_reach.
Qed.

Lemma tracks_below c d :
  tracks cx cy c -> (d <? best_dist c) = true -> (d <? 1e9) = true.
Proof.
  intros [H0 H1] Hd. destruct (best c) as [[i s]|] eqn:E.
  - destruct (H1 i s eq_refl) as [_ B]. eapply ltb_trans; eassumption.
  - now rewrite (H0 eq_refl) in Hd.
Qed.

Lemma closest_step_tracks i s c :
  tracks cx cy c -> tracks cx cy (closest_step cx cy i s c).
Proof.
  intros T.
  destruct (closest_step_cases cx cy i s c) as
    [(E1 & E2 & ->)|[(E1 & E2 & ->)|[(E1 & E2 & ->)|(E1 & E2 & ->)]]];
    try exact T; split; simpl; try discriminate; intros j t [= <- <-].
  - split; [reflexivity|].
    apply (tracks_below c _ T). eapply ltb_trans; eassumption.
  - split; [reflexivity|]. apply (tracks_below c _ T E1).
  - split; [reflexivity|]. apply (tracks_below c _ T E2).
Qed.

Lemma closest_scan_tracks v :
  forall i c, tracks cx cy c -> tracks cx cy (closest_scan cx cy i v c).
Proof.
  induction v as [|s rest IH]; intros i c T; simpl; [exact T|].
  apply IH, closest_step_tracks, T.
Qed.

Lemma tracks_init : tracks cx cy closest_init.
Proof. split; [reflexivity|discriminate]. Qed.

(** The distance of the end handed back, and the fact that nothing in the
    list is strictly closer. *)
Lemma vector_find_closest_minimal v b rest :
  vector_find_closest v cx cy = Some (b, rest) ->
  (sqdist cx cy (x1 b) (y1 b) <? 1e9) = true /\
  forall s, In s v ->
    (sqdist cx cy (x1 s) (y1 s) <? sqdist cx cy (x1 b) (y1 b)) = false /\
    (sqdist cx cy (x2 s) (y2 s) <? sqdist cx cy (x1 b) (y1 b)) = false.
Proof.
  intros F.
  destruct (vector_find_closest_node cx cy v b rest F) as (i & s & Hn & Hr & Hb & Hf).
  pose proof (closest_scan_tracks v 0 closest_init tracks_init) as [_ T].
  pose proof (closest_scan_first_min cx cy v 0 closest_init) as M.
  set (c := closest_scan cx cy 0 v closest_init) in *.
  destruct (T i s Hb) as [D B].
  assert (D' : best_dist c = sqdist cx cy (x1 b) (y1 b)).
  { rewrite D, Hf. destruct (do_reverse c); reflexivity. }
  rewrite <- D'. split; [exact B|].
  symmetry in M.
  destruct (first_min_spec (endpoint_dists cx cy v) [] _ _ _ _ M) as [Hmin _].
  { intros d []. }
  { discriminate. }
  simpl in Hmin. intros t Ht.
  split; apply Hmin; unfold endpoint_dists; apply in_flat_map; exists t;
    simpl; auto.
Qed.

(** X4.  The node [vector_find_closest] hands back starts strictly within the
    search radius, the list it leaves is one node shorter, and the node and
    that list together hold the strokes the list held. *)
Theorem vector_find_closest_takes_one v b rest :
  vector_find_closest v cx cy = Some (b, rest) ->
  (sqdist cx cy (x1 b) (y1 b) <? 1e9) = true /\
  S (length rest) = length v /\
  same_strokes (b :: rest) v.
Proof.
  intros F.
  destruct (vector_find_closest_minimal v b rest F) as [B _].
  destruct (vector_find_closest_node cx cy v b rest F) as (i & s & Hn & -> & _ & Hf).
  split; [exact B|]. split; [apply (unlink_length _ _ _ Hn)|].
  exists (s :: unlink i v). split; [apply unlink_perm, Hn|].
  constructor.
  - rewrite Hf. apply same_stroke_pick.
  - clear. induction (unlink i v); constructor; [now left|assumption].
Qed.

End ClosestMore.

Lemma vector_find_closest_takes_one_witness :
  (sqdist 1 1 (x1 (mkVector 5 5 5 6)) (y1 (mkVector 5 5 5 6)) <? 1e9) = true /\
  S (length [mkVector 5 5 6 5]) = length [mkVector 5 6 5 5; mkVector 5 5 6 5] /\
  same_strokes [mkVector 5 5 5 6; mkVector 5 5 6 5]
               [mkVector 5 6 5 5; mkVector 5 5 6 5].
Proof.
  apply (vector_find_closest_takes_one 1 1 [mkVector 5 6 5 5; mkVector 5 5 6 5]).
  vm_compute. reflexivity.
Defined.

(** ** [vector_optimize]: the order it builds *)

Lemma same_strokes_nil : same_strokes [] [].
Proof. exists []. split; constructor. Qed.

Lemma same_strokes_refl v : same_strokes v v.
Proof.
  exists v. split; [reflexivity|].
  induction v; constructor; [now left|assumption].
Qed.

Lemma same_strokes_in chain store w :
  same_strokes chain store -> In w chain ->
  exists t, In t store /\ same_stroke w t.
Proof.
  intros (l & P & F) Hw.
  assert (exists t, In t l /\ same_stroke w t) as (t & Ht & St).
  { clear P. induction F as [|a b la lb Hab F IH]; [destruct Hw|].
    destruct Hw as [->|Hw].
    - exists b. split; [now left|exact Hab].
    - destruct (IH Hw) as (t & Ht & St). exists t. split; [now right|exact St]. }
  exists t. split; [|exact St]. eapply Permutation_in; eassumption.
Qed.

Lemma not_closer_same_stroke cx cy d w t :
  same_stroke w t ->
  (sqdist cx cy (x1 t) (y1 t) <? d) = false /\
  (sqdist cx cy (x2 t) (y2 t) <? d) = false ->
  (sqdist cx cy (x1 w) (y1 w) <? d) = false /\
  (sqdist cx cy (x2 w) (y2 w) <? d) = false.
Proof. intros [->| ->] [HA HB]; simpl; auto. Qed.

Lemma optimize_loop_greedy fuel :
  forall vectors vs cx cy vs' ex ey,
    optimize_loop fuel vectors vs cx cy = Returned (vs', ex, ey) ->
    exists tail,
      vs' = vs ++ tail /\ same_strokes tail vectors /\ greedy_chain tail cx cy.
Proof.
  induction fuel as [|fuel IH]; intros [|s0 r] vs cx cy vs' ex ey; simpl;
    try discriminate.
  - intros [= <- <- <-]. exists []. rewrite app_nil_r.
    split; [reflexivity|]. split; [apply same_strokes_nil|exact I].
  - intros [= <- <- <-]. exists []. rewrite app_nil_r.
    split; [reflexivity|]. split; [apply same_strokes_nil|exact I].
  - destruct (vector_find_closest (s0 :: r) cx cy) as [[b rest]|] eqn:F;
      [|discriminate].
    destruct (vector_find_closest_minimal _ _ _ _ _ F) as [B M].
    destruct (vector_find_closest_node _ _ _ _ _ F) as (i & s & Hn & -> & _ & Hb).
    assert (Sb : same_stroke b s) by (rewrite Hb; apply same_stroke_pick).
    assert (Hs : In s (s0 :: r)) by (eapply nth_error_In, Hn).
    intros H. destruct (IH _ _ _ _ _ _ _ H) as (tail & -> & St & G).
    exists (b :: tail). split; [now rewrite <- app_assoc|]. split.
    + destruct St as (l & Pl & Fl). exists (s :: l). split.
      * rewrite Pl. apply unlink_perm, Hn.
      * constructor; assumption.
    + cbn [greedy_chain]. split; [exact B|]. split; [|exact G].
      intros w [<-|Hw].
      * apply (not_closer_same_stroke _ _ _ _ s Sb), M, Hs.
      * destruct (same_strokes_in _ _ _ St Hw) as (t & Ht & Swt).
        apply (not_closer_same_stroke _ _ _ _ t Swt), M.
        eapply unlink_incl, Ht.
Qed.

(** X5.  The list [vector_optimize] builds is a nearest-neighbour order: with
    the pen first at the position given and then at the end of the node just
    placed, every node starts at an end point within the search radius that
    no end point of this node or of a node placed later is strictly closer
    to. *)
Theorem vector_optimize_greedy vectors cx cy vs ex ey :
  vector_optimize vectors cx cy = Returned (vs, ex, ey) ->
  greedy_chain vs cx cy.
Proof.
  intros H. destruct (optimize_loop_greedy _ _ _ _ _ _ _ _ H) as (tail & E & _ & G).
  simpl in E. now subst.
Qed.

Lemma vector_optimize_greedy_witness :
  greedy_chain [mkVector 0 0 1 0; mkVector 1 0 1 1; mkVector 5 5 5 6] 0 0.
Proof.
  apply (vector_optimize_greedy scenario 0 0 _ 5 6). vm_compute. reflexivity.
Defined.

(** X6.  Whenever [vector_optimize] returns, with or without every member in
    reach at the start, the list it built has the length of the input and
    holds its strokes, each once, in one of its two directions: no segment is
    lost, repeated or altered otherwise than by flipping. *)
Theorem vector_optimize_keeps_strokes vectors cx cy vs ex ey :
  vector_optimize vectors cx cy = Returned (vs, ex, ey) ->
  length vs = length vectors /\ same_strokes vs vectors.
Proof.
  intros H. destruct (optimize_loop_strokes _ _ _ _ _ _ _ _ H) as (tail & E & S).
  simpl in E. subst tail. split; [apply same_strokes_length|]; exact S.
Qed.

Lemma vector_optimize_keeps_strokes_witness :
  length [mkVector 0 0 1 0; mkVector 5 5 5 6] = length backwards /\
  same_strokes [mkVector 0 0 1 0; mkVector 5 5 5 6] backwards.
Proof.
  apply (vector_optimize_keeps_strokes backwards 0 0 _ 5 6). vm_compute. reflexivity.
Defined.

(** ** [vector_stats]: the cuts *)

Lemma stats_loop_cuts v :
  forall lx ly st,
    cut_len_sum (stats_loop v lx ly st)
    = fold_left add (nonzero (cut_lengths v)) (cut_len_sum st) /\
    cuts (stats_loop v lx ly st)
    = (cuts st + Z.of_nat (length (nonzero (cut_lengths v))))%Z.
Proof.
  induction v as [|s rest IH]; intros lx ly st.
  - simpl. split; [reflexivity|lia].
  - cbn [stats_loop cut_lengths map nonzero filter].
    destruct (IH (x2 s) (y2 s)
      (let st1 :=
         if negb (euclid (lx - x1 s) (ly - y1 s) =? 0)
         then mkStats (cuts st) (cut_len_sum st) (transits st + 1)
                (transit_len_sum st + euclid (lx - x1 s) (ly - y1 s))
         else st in
       if negb (euclid (x1 s - x2 s) (y1 s - y2 s) =? 0)
       then mkStats (cuts st1 + 1)
              (cut_len_sum st1 + euclid (x1 s - x2 s) (y1 s - y2 s))
              (transits st1) (transit_len_sum st1)
       else st1)) as [IH1 IH2].
    cbv zeta in IH1, IH2. rewrite IH1, IH2.
    fold (cut_lengths rest). fold (nonzero (cut_lengths rest)).
    destruct (negb (euclid (lx - x1 s) (ly - y1 s) =? 0));
      destruct (negb (euclid (x1 s - x2 s) (y1 s - y2 s) =? 0));
      cbn [cut_len_sum cuts fold_left length]; split; try reflexivity; lia.
Qed.

Lemma nonzero_length ts : (length (nonzero ts) <= length ts)%nat.
Proof. apply filter_length_le. Qed.

Lemma transits_from_length v : forall lx ly, length (transits_from lx ly v) = length v.
Proof. induction v; intros; simpl; [reflexivity|]. now rewrite IHv. Qed.

(** X7.  The cut length of [vector_stats] is the sum, taken from the left, of
    the lengths of the nodes that are not exactly zero, and the cut count is
    the number of those nodes; neither count exceeds the number of nodes. *)
Theorem vector_stats_cuts v :
  cut_len_sum (vector_stats v) = sum_floats (nonzero (cut_lengths v)) /\
  cuts (vector_stats v) = Z.of_nat (length (nonzero (cut_lengths v))) /\
  (0 <= cuts (vector_stats v) <= Z.of_nat (length v))%Z /\
  (0 <= transits (vector_stats v) <= Z.of_nat (length v))%Z.
Proof.
  unfold vector_stats, sum_floats.
  destruct (stats_loop_cuts v 0 0 (mkStats 0 0 0 0)) as [H1 H2].
  destruct (stats_loop_transits v 0 0 (mkStats 0 0 0 0)) as [_ H3].
  rewrite H2, H3. cbn [cuts transits cut_len_sum] in *.
  pose proof (nonzero_length (cut_lengths v)) as L1.
  pose proof (nonzero_length (transits_from 0 0 v)) as L2.
  unfold cut_lengths in L1 at 2. rewrite length_map in L1.
  rewrite transits_from_length in L2.
  repeat split; try exact H1; lia.
Qed.

Lemma cut_length_reversed s :
  euclid (x1 (reversed s) - x2 (reversed s)) (y1 (reversed s) - y2 (reversed s))
  = euclid (x1 s - x2 s) (y1 s - y2 s).
Proof. simpl. apply euclid_sym. Qed.

Lemma same_strokes_cut_lengths chain store :
  same_strokes chain store -> Permutation (cut_lengths chain) (cut_lengths store).
Proof.
  intros (l & P & F).
  assert (E : cut_lengths chain = cut_lengths l).
  { clear P. induction F as [|a b la lb Hab F IH]; [reflexivity|].
    simpl. rewrite IH. f_equal.
    destruct Hab as [->| ->]; [reflexivity|apply cut_length_reversed]. }
  rewrite E. apply Permutation_map, P.
Qed.

Lemma Permutation_nonzero_length ts us :
  Permutation ts us -> length (nonzero ts) = length (nonzero us).
Proof.
  intros P. unfold nonzero.
  induction P; simpl; try congruence.
  - destruct (negb (x =? 0)); simpl; congruence.
  - destruct (negb (x =? 0)), (negb (y =? 0)); reflexivity.
Qed.

(** X8.  Sequencing does not change what is cut: the list [vector_optimize]
    builds has the cut lengths of the input (flipping a node leaves its
    length the same double), so the cut count [vector_stats] prints before
    and after the call is the same. *)
Theorem vector_optimize_keeps_cuts vectors cx cy vs ex ey :
  vector_optimize vectors cx cy = Returned (vs, ex, ey) ->
  Permutation (cut_lengths vs) (cut_lengths vectors) /\
  cuts (vector_stats vs) = cuts (vector_stats vectors).
Proof.
  intros H. destruct (optimize_loop_strokes _ _ _ _ _ _ _ _ H) as (tail & E & S).
  simpl in E. subst tail.
  pose proof (same_strokes_cut_lengths _ _ S) as P.
  split; [exact P|].
  unfold vector_stats.
  destruct (stats_loop_cuts vs 0 0 (mkStats 0 0 0 0)) as [_ ->].
  destruct (stats_loop_cuts vectors 0 0 (mkStats 0 0 0 0)) as [_ ->].
  now rewrite (Permutation_nonzero_length _ _ P).
Qed.

Lemma vector_optimize_keeps_cuts_witness :
  Permutation (cut_lengths [mkVector 0 0 1 0; mkVector 5 5 5 6])
              (cut_lengths backwards) /\
  cuts (vector_stats [mkVector 0 0 1 0; mkVector 5 5 5 6])
  = cuts (vector_stats backwards).
Proof.
  apply (vector_optimize_keeps_cuts backwards 0 0 _ 5 6). vm_compute. reflexivity.
Defined.

(** ** [vector_refine]: what it keeps, and the transit it picks *)

Lemma same_strokes_perm chain store store' :
  same_strokes chain store -> Permutation store store' ->
  same_strokes chain store'.
Proof.
  intros (l & P & F) Q. exists l. split; [|exact F]. now rewrite P.
Qed.

Lemma same_strokes_app a b c d :
  same_strokes a b -> same_strokes c d -> same_strokes (a ++ c) (b ++ d).
Proof.
  intros (l & P & F) (m & Q & G). exists (l ++ m). split.
  - now apply Permutation_app.
  - now apply Forall2_app.
Qed.

(** The two ways [vector_refine] returns. *)
Lemma vector_refine_cases vector cx cy vector' ex ey red :
  vector_refine vector cx cy = Returned (vector', ex, ey, red) ->
  (vector' = vector /\ ex = cx /\ ey = cy /\ red = 0) \/
  (exists k tv j vs,
     nth_error vector k = Some tv /\ (j < k)%nat /\
     vector' = firstn (S j) vector ++ tv :: vs /\
     same_strokes vs (skipn (S j) (unlink k vector)) /\
     vector_optimize (skipn (S j) (unlink k vector)) (x2 tv) (y2 tv)
       = Returned (vs, ex, ey) /\
     red = vector_transit_len vector - vector_transit_len vector').
Proof.
  unfold vector_refine.
  destruct (transit_v _) as [[k tv]|] eqn:HT;
    [|intros [= <- <- <- <-]; left; auto].
  destruct (closest_before vector k tv) as [j|] eqn:HC;
    [|intros [= <- <- <- <-]; left; auto].
  destruct (closest_before_lt _ _ _ _ HC) as [Hjk Hjl].
  assert (Hk : nth_error vector k = Some tv).
  { apply (longest_scan_node vector [] cx cy (mkLongest 0 None));
      [discriminate|exact HT]. }
  destruct (relink_split j k tv tv vector Hjk Hk) as [Hfront Hback].
  rewrite Hfront, Hback.
  remember (firstn (S j) vector) as front eqn:Efront.
  destruct (vector_optimize _ _ _) as [| |[[vs cx2] cy2]] eqn:O; try discriminate.
  intros [= <- <- <- <-]. right.
  pose proof O as O'. unfold vector_optimize in O'.
  destruct (optimize_loop_strokes _ _ _ _ _ _ _ _ O') as (tail & Ht & St).
  simpl in Ht. subst tail.
  exists k, tv, j, vs.
  split; [exact Hk|]. split; [exact Hjk|].
  assert (E : (front ++ [tv]) ++ vs = firstn (S j) vector ++ tv :: vs)
    by (subst front; rewrite <- app_assoc; reflexivity).
  split; [exact E|]. split; [exact St|]. split; [exact O|reflexivity].
Qed.

(** X9.  Whenever [vector_refine] returns, the list it leaves has the length
    of the list it was given and holds the same strokes, each once (flipped
    or not), and it still begins with the same node: the head the caller
    holds stays the head. *)
Theorem vector_refine_keeps_strokes vector cx cy vector' ex ey red :
  vector_refine vector cx cy = Returned (vector', ex, ey, red) ->
  length vector' = length vector /\
  same_strokes vector' vector /\
  hd_error vector' = hd_error vector.
Proof.
  intros H.
  assert (S : same_strokes vector' vector /\ hd_error vector' = hd_error vector).
  { destruct (vector_refine_cases _ _ _ _ _ _ _ H)
      as [(-> & _)|(k & tv & j & vs & Hk & Hjk & -> & St & _)].
    - split; [apply same_strokes_refl|reflexivity].
    - split.
      + apply same_strokes_perm
          with (store := firstn (S j) vector ++ tv :: skipn (S j) (unlink k vector)).
        * apply same_strokes_app; [apply same_strokes_refl|].
          change (tv :: vs) with ([tv] ++ vs).
          change (tv :: skipn (S j) (unlink k vector))
            with ([tv] ++ skipn (S j) (unlink k vector)).
          apply same_strokes_app; [apply same_strokes_refl|exact St].
        * rewrite <- Permutation_middle.
          rewrite <- (firstn_unlink vector (S j) k) by lia.
          rewrite firstn_skipn. apply unlink_perm, Hk.
      + destruct vector as [|a rest]; [destruct k; discriminate Hk|].
        reflexivity. }
  destruct S as [S Hd]. split; [apply same_strokes_length, S|]. split; assumption.
Qed.

Lemma vector_refine_keeps_strokes_witness :
  length [mkVector 0 0 1 0; mkVector 1 0 2 0; mkVector 1.5 7 1.5 8;
          mkVector 2 0 10 0; mkVector 10 1 10 2] = length detour /\
  same_strokes [mkVector 0 0 1 0; mkVector 1 0 2 0; mkVector 1.5 7 1.5 8;
                mkVector 2 0 10 0; mkVector 10 1 10 2] detour /\
  hd_error [mkVector 0 0 1 0; mkVector 1 0 2 0; mkVector 1.5 7 1.5 8;
            mkVector 2 0 10 0; mkVector 10 1 10 2] = hd_error detour.
Proof.
  eapply (vector_refine_keeps_strokes detour 0 0). vm_compute. reflexivity.
Defined.

Lemma ltb_irrefl x : (x <? x) = false.
Proof.
  rewrite ltb_spec. unfold SFltb.
  destruct (SFcompare (Prim2SF x) (Prim2SF x)) as [c|] eqn:E; [|reflexivity].
  now rewrite (SFcompare_self _ _ E).
Qed.

Lemma longest_scan_spec v :
  forall pre cx cy l,
    (forall u, In u pre -> fpeq u 0 = false -> (max_transit l <? u) = false) ->
    (forall k tv, transit_v l = Some (k, tv) ->
       nth_error pre k = Some (max_transit l) /\
       fpeq (max_transit l) 0 = false /\
       forall i u, (i < k)%nat -> nth_error pre i = Some u ->
                   fpeq u 0 = false -> (max_transit l <=? u) = false) ->
    (forall u, In u (pre ++ transits_from cx cy v) -> fpeq u 0 = false ->
       (max_transit (longest_scan v (length pre) cx cy l) <? u) = false) /\
    (forall k tv,
       transit_v (longest_scan v (length pre) cx cy l) = Some (k, tv) ->
       nth_error (pre ++ transits_from cx cy v) k
         = Some (max_transit (longest_scan v (length pre) cx cy l)) /\
       fpeq (max_transit (longest_scan v (length pre) cx cy l)) 0 = false /\
       forall i u, (i < k)%nat ->
         nth_error (pre ++ transits_from cx cy v) i = Some u ->
         fpeq u 0 = false ->
         (max_transit (longest_scan v (length pre) cx cy l) <=? u) = false).
Proof.
  induction v as [|s rest IH]; intros pre cx cy l H1 H2.
  - simpl. rewrite app_nil_r. split; assumption.
  - cbn [longest_scan transits_from]. cbv zeta.
    set (t := euclid (cx - x1 s) (cy - y1 s)).
    replace (S (length pre)) with (length (pre ++ [t]))
      by (rewrite length_app; simpl; lia).
    replace (pre ++ t :: transits_from (x2 s) (y2 s) rest)
      with ((pre ++ [t]) ++ transits_from (x2 s) (y2 s) rest)
      by (rewrite <- app_assoc; reflexivity).
    destruct (negb (fpeq t 0) && (max_transit l <? t)) eqn:C; apply IH;
      cbn [max_transit transit_v].
    + apply andb_prop in C. destruct C as [C1 C2].
      intros u Hu Cu. apply in_app_or in Hu. destruct Hu as [Hu|[<-|[]]].
      * destruct (t <? u) eqn:E; [|reflexivity].
        pose proof (H1 u Hu Cu) as N.
        rewrite (ltb_trans _ _ _ C2 E) in N. discriminate.
      * apply ltb_irrefl.
    + apply andb_prop in C. destruct C as [C1 C2].
      intros k tv [= <- <-]. split; [|split].
      * rewrite nth_error_app2 by lia. now rewrite Nat.sub_diag.
      * now destruct (fpeq t 0).
      * intros i u Hi Hu Cu. rewrite nth_error_app1 in Hu by lia.
        destruct (t <=? u) eqn:E; [|reflexivity].
        pose proof (H1 u (nth_error_In _ _ Hu) Cu) as N.
        rewrite (ltb_leb_trans _ _ _ C2 E) in N. discriminate.
    + intros u Hu Cu. apply in_app_or in Hu. destruct Hu as [Hu|[<-|[]]]; auto.
      rewrite Cu in C. simpl in C. exact C.
    + intros k tv Hk. destruct (H2 k tv Hk) as (Hn & Hc & Hlt).
      assert (k < length pre)%nat by (apply nth_error_Some; congruence).
      split; [|split]; auto.
      * rewrite nth_error_app1 by lia. exact Hn.
      * intros i u Hi Hu Cu. rewrite nth_error_app1 in Hu by lia. eauto.
Qed.

(** X10.  The node [vector_refine] takes for the longest transit: the transit
    leading to it is not within [fpeq] of zero, no transit of the list that
    is not within [fpeq] of zero is strictly longer, and every such transit
    before it is strictly shorter (or not a number): the first of the longest
    transits is picked. *)
Theorem vector_refine_longest_transit vector cx cy k tv :
  transit_v (longest_scan vector 0 cx cy (mkLongest 0 None)) = Some (k, tv) ->
  nth_error vector k = Some tv /\
  exists t,
    nth_error (transits_from cx cy vector) k = Some t /\
    fpeq t 0 = false /\
    (forall u, In u (transits_from cx cy vector) -> fpeq u 0 = false ->
               (t <? u) = false) /\
    (forall i u, (i < k)%nat ->
       nth_error (transits_from cx cy vector) i = Some u ->
       fpeq u 0 = false -> (t <=? u) = false).
Proof.
  intros H. split.
  - apply (longest_scan_node vector [] cx cy (mkLongest 0 None));
      [discriminate|exact H].
  - destruct (longest_scan_spec vector [] cx cy (mkLongest 0 None)) as [A B].
    { intros u []. }
    { discriminate. }
    simpl in A, B. destruct (B k tv H) as (Hn & Hc & Hlt).
    exists (max_transit (longest_scan vector 0 cx cy (mkLongest 0 None))).
    repeat split; assumption.
Qed.

Lemma vector_refine_longest_transit_witness :
  nth_error detour 3 = Some (mkVector 1.5 7 1.5 8) /\
  exists t,
    nth_error (transits_from 0 0 detour) 3 = Some t /\
    fpeq t 0 = false /\
    (forall u, In u (transits_from 0 0 detour) -> fpeq u 0 = false ->
               (t <? u) = false) /\
    (forall i u, (i < 3)%nat ->
       nth_error (transits_from 0 0 detour) i = Some u ->
       fpeq u 0 = false -> (t <=? u) = false).
Proof.
  apply (vector_refine_longest_transit detour 0 0 3 (mkVector 1.5 7 1.5 8)).
  vm_compute. reflexivity.
Defined.

(** X11.  On a list of at most one node [vector_refine] has nothing to move
    a node behind: it returns 0 and leaves the list and the two pointers as
    they were, however long the transit to the one node is. *)
Theorem vector_refine_short vector cx cy :
  (length vector <= 1)%nat ->
  vector_refine vector cx cy = Returned (vector, cx, cy, 0).
Proof.
  intros L. unfold vector_refine.
  destruct (transit_v _) as [[k tv]|] eqn:HT; [|reflexivity].
  assert (Hk : nth_error vector k = Some tv).
  { apply (longest_scan_node vector [] cx cy (mkLongest 0 None));
      [discriminate|exact HT]. }
  assert (k < length vector)%nat by (apply nth_error_Some; congruence).
  assert (k = 0)%nat as -> by lia.
  reflexivity.
Qed.

Lemma vector_refine_short_witness :
  vector_refine [mkVector 3 3 4 4] 0 0 = Returned ([mkVector 3 3 4 4], 0, 0, 0).
Proof. apply vector_refine_short. simpl. lia. Defined.

(** ** [vectors_parse] *)

Lemma parse_line_stops l st : parse_line l st = None <-> stops l = true.
Proof.
  destruct l as [b g r|x y|x y| | |]; simpl; try (split; discriminate);
    try (split; reflexivity).
  destruct (select_pass b g r); split; intros H; try discriminate; reflexivity.
Qed.

(** Lines that do not end the loop are gone through one after the other. *)
Lemma parse_loop_app pre :
  forall rest st,
    forallb (fun l => negb (stops l)) pre = true ->
    parse_loop (pre ++ rest) st = parse_loop rest (run_lines pre st).
Proof.
  induction pre as [|l pre IH]; intros rest st H; [reflexivity|].
  simpl in H. apply andb_prop in H. destruct H as [Hl Hpre].
  cbn [app parse_loop run_lines fold_left].
  destruct (parse_line l st) as [st'|] eqn:E.
  - apply IH, Hpre.
  - apply parse_line_stops in E. rewrite E in Hl. discriminate.
Qed.

(** X12.  How [vectors_parse] stops.  After lines that are all commands with
    a recognised colour: an [X] line ends the input as the end of the file
    would, whatever follows it; a line that is no command makes the result
    [NULL], whatever was read before; and a [P] line whose colour is not
    pure red, green or blue makes the program exit. *)
Theorem vectors_parse_stops pre post :
  forallb (fun l => negb (stops l)) pre = true ->
  vectors_parse (pre ++ LineX :: post) = vectors_parse pre /\
  vectors_parse (pre ++ LineOther :: post) = ParseNull /\
  (forall b g r, select_pass b g r = None ->
     vectors_parse (pre ++ LineP b g r :: post) = ParseExit).
Proof.
  intros H. unfold vectors_parse. repeat split.
  - rewrite parse_loop_app by exact H.
    rewrite <- (app_nil_r pre) at 2. rewrite parse_loop_app by exact H.
    reflexivity.
  - rewrite parse_loop_app by exact H. reflexivity.
  - intros b g r N. rewrite parse_loop_app by exact H.
    simpl. now rewrite N.
Qed.

Lemma vectors_parse_stops_witness :
  vectors_parse ([LineP 0 255 0; LineM 0 0; LineL 1 0] ++ LineX :: [LineL 2 2])
    = vectors_parse [LineP 0 255 0; LineM 0 0; LineL 1 0] /\
  vectors_parse ([LineP 0 255 0; LineM 0 0; LineL 1 0] ++ LineOther :: [LineL 2 2])
    = ParseNull /\
  (forall b g r, select_pass b g r = None ->
     vectors_parse ([LineP 0 255 0; LineM 0 0; LineL 1 0]
                      ++ LineP b g r :: [LineL 2 2]) = ParseExit).
Proof. apply vectors_parse_stops. reflexivity. Defined.

Lemma pass_store_set_pass vs :
  forall p q st,
    pass_store (set_pass vs p st) q = pass_store vs q \/
    pass_store (set_pass vs p st) q = st.
Proof.
  unfold pass_store.
  induction vs as [|a rest IH]; intros [|p] [|q] st; simpl; auto.
Qed.

Lemma parse_line_store_ok l st st' :
  (forall q, store_ok (pass_store (vectors st) q)) ->
  parse_line l st = Some st' ->
  forall q, store_ok (pass_store (vectors st') q).
Proof.
  intros H.
  destruct l as [b g r|x y|x y| | |]; simpl; try discriminate.
  - destruct (select_pass b g r); [|discriminate]. intros [= <-]. exact H.
  - intros [= <-]. exact H.
  - intros [= <-] q. simpl.
    destruct (pass_store_set_pass (vectors st) (pass st) q
                (vector_create (pass_store (vectors st) (pass st))
                   (lx st) (ly st) x y)) as [-> | ->];
      [apply H|apply store_ok_create, H].
  - intros [= <-] q. simpl.
    destruct (pass_store_set_pass (vectors st) (pass st) q
                (vector_create (pass_store (vectors st) (pass st))
                   (lx st) (ly st) (mx st) (my st))) as [-> | ->];
      [apply H|apply store_ok_create, H].
Qed.

Lemma parse_loop_store_ok input :
  forall st st',
    (forall q, store_ok (pass_store (vectors st) q)) ->
    parse_loop input st = Parsed st' ->
    forall q, store_ok (pass_store (vectors st') q).
Proof.
  induction input as [|l rest IH]; intros st st' H; simpl.
  - intros [= <-]. exact H.
  - destruct (parse_line l st) as [st1|] eqn:E.
    + apply IH. eapply parse_line_store_ok; eassumption.
    + destruct l; try discriminate. intros [= <-]. exact H.
Qed.

Lemma set_pass_length vs : forall p st, length (set_pass vs p st) = length vs.
Proof. induction vs as [|a rest IH]; intros [|p] st; simpl; auto. Qed.

Lemma parse_loop_passes input :
  forall st st',
    parse_loop input st = Parsed st' ->
    length (vectors st') = length (vectors st).
Proof.
  induction input as [|l rest IH]; intros st st'; simpl.
  - now intros [= <-].
  - destruct (parse_line l st) as [st1|] eqn:E.
    + intros H. rewrite (IH _ _ H).
      destruct l as [b g r|x y|x y| | |]; simpl in E; try discriminate;
        try (destruct (select_pass b g r); [|discriminate]);
        injection E as <-; simpl; try reflexivity; apply set_pass_length.
    + destruct l; try discriminate. now intros [= <-].
Qed.

(** X13.  Whatever the lines, the array [vectors_parse] returns has its
    [VECTOR_PASSES] lists, and each of them is free of duplicates: no segment
    of a pass is, within [eps], a segment stored before it in that pass or
    the reverse of one, and none but the first of a pass has zero length. *)
Theorem vectors_parse_no_duplicates input st :
  vectors_parse input = Parsed st ->
  length (vectors st) = VECTOR_PASSES /\
  forall q, store_ok (pass_store (vectors st) q).
Proof.
  intros H. split.
  - apply parse_loop_passes in H. exact H.
  - eapply parse_loop_store_ok; [|exact H].
    intros [|[|[|[|q]]]]; exact store_ok_nil.
Qed.

Lemma vectors_parse_no_duplicates_witness :
  length [[mkVector 0 0 1 0]; []; []] = VECTOR_PASSES /\
  forall q, store_ok (pass_store [[mkVector 0 0 1 0]; []; []] q).
Proof.
  apply (vectors_parse_no_duplicates
           [LineM 0 0; LineL 1 0; LineM 1 0; LineL 0 0; LineL 0 0]
           (mkParse [[mkVector 0 0 1 0]; []; []] 1 0 0 0 0 3)).
  vm_compute. reflexivity.
Defined.

(** ** [output_vector] and [generate_vectors] *)

Lemma output_loop_line_ends v :
  forall lx ly, line_ends (output_loop v lx ly) = map (fun s => (x2 s, y2 s)) v.
Proof.
  induction v as [|s rest IH]; intros lx ly; [reflexivity|].
  cbn [output_loop map]. unfold line_ends in *. rewrite flat_map_app, IH.
  destruct (fpeq (x1 s) lx && fpeq (y1 s) ly); reflexivity.
Qed.

Lemma output_loop_headers v : forall lx ly, headers (output_loop v lx ly) = [].
Proof.
  induction v as [|s rest IH]; intros lx ly; [reflexivity|].
  cbn [output_loop]. unfold headers in *. rewrite filter_app, IH.
  destruct (fpeq (x1 s) lx && fpeq (y1 s) ly); reflexivity.
Qed.

Lemma output_loop_length v :
  forall lx ly, (length v <= length (output_loop v lx ly) <= 2 * length v)%nat.
Proof.
  induction v as [|s rest IH]; intros lx ly; [simpl; lia|].
  cbn [output_loop]. rewrite length_app. specialize (IH (x2 s) (y2 s)).
  destruct (fpeq (x1 s) lx && fpeq (y1 s) ly); simpl; lia.
Qed.

(** X14.  [output_vector] writes one [L] line for every node, in the order of
    the list and leading to the end of the node, whether or not it writes an
    [M] line in front; it writes no [P] line, and at most two lines a node. *)
Theorem output_vector_lines v :
  line_ends (output_vector v) = map (fun s => (x2 s, y2 s)) v /\
  headers (output_vector v) = [] /\
  (length v <= length (output_vector v) <= 2 * length v)%nat.
Proof.
  unfold output_vector. split; [apply output_loop_line_ends|].
  split; [apply output_loop_headers|apply output_loop_length].
Qed.

Lemma line_ends_app a b : line_ends (a ++ b) = line_ends a ++ line_ends b.
Proof. apply flat_map_app. Qed.

Lemma headers_app a b : headers (a ++ b) = headers a ++ headers b.
Proof. apply filter_app. Qed.

Lemma generate_loop_counts passes :
  forall i lx ly out,
    generate_loop i passes lx ly = Returned out ->
    length (line_ends out) = total_stored passes /\
    length (headers out) = length (nonempty_passes passes).
Proof.
  induction passes as [|vs rest IH]; intros i lx ly out; cbn [generate_loop].
  - intros [= <-]. split; reflexivity.
  - destruct vs as [|a vs].
    + intros H. apply IH in H. exact H.
    + destruct (vector_optimize (a :: vs) lx ly) as [| |[[chain lx'] ly']] eqn:O;
        try discriminate.
      destruct (generate_loop (S i) rest lx' ly') as [| |out'] eqn:G;
        try discriminate.
      intros [= <-]. destruct (IH _ _ _ _ G) as [IH1 IH2].
      unfold vector_optimize in O.
      destruct (optimize_loop_strokes _ _ _ _ _ _ _ _ O) as (tail & E & S).
      simpl in E. subst tail. apply same_strokes_length in S.
      split.
      * change (line_ends (OutP (if Nat.eqb i 0 then 100 else 0)
                              (if Nat.eqb i 1 then 100 else 0)
                              (if Nat.eqb i 2 then 100 else 0)
                           :: output_vector chain ++ out'))
          with (line_ends (output_vector chain ++ out')).
        rewrite line_ends_app, length_app. unfold output_vector.
        rewrite output_loop_line_ends, length_map, IH1, S.
        reflexivity.
      * change (headers (OutP (if Nat.eqb i 0 then 100 else 0)
                              (if Nat.eqb i 1 then 100 else 0)
                              (if Nat.eqb i 2 then 100 else 0)
                           :: output_vector chain ++ out'))
          with (OutP (if Nat.eqb i 0 then 100 else 0)
                     (if Nat.eqb i 1 then 100 else 0)
                     (if Nat.eqb i 2 then 100 else 0)
                :: headers (output_vector chain ++ out')).
        rewrite headers_app. unfold output_vector.
        rewrite output_loop_headers. simpl. now rewrite IH2.
Qed.

(** X15.  When [generate_vectors] completes, it has written one [L] line for
    every segment [vectors_parse] stored, over all passes, and one [P] line
    for every pass that holds a segment: empty passes leave no trace. *)
Theorem generate_vectors_counts input out :
  generate_vectors input = Some (Returned out) ->
  exists st,
    vectors_parse input = Parsed st /\
    length (line_ends out) = total_stored (vectors st) /\
    length (headers out) = length (nonempty_passes (vectors st)).
Proof.
  unfold generate_vectors.
  destruct (vectors_parse input) as [| |st]; try discriminate.
  intros [= H]. exists st. split; [reflexivity|].
  apply (generate_loop_counts _ _ _ _ _ H).
Qed.

Lemma generate_vectors_counts_witness :
  exists st,
    vectors_parse [LineP 0 255 0; LineM 0 0; LineL 1 0; LineL 1 1;
                   LineP 255 0 0; LineM 5 5; LineL 5 6; LineX]
    = Parsed st /\
    length (line_ends [OutP 100 0 0; OutL 1 0; OutL 1 1;
                       OutP 0 0 100; OutM 5 5; OutL 5 6])
    = total_stored (vectors st) /\
    length (headers [OutP 100 0 0; OutL 1 0; OutL 1 1;
                     OutP 0 0 100; OutM 5 5; OutL 5 6])
    = length (nonempty_passes (vectors st)).
Proof.
  apply generate_vectors_counts. vm_compute. reflexivity.
Defined.

(** ** [fpeq] as a relation *)

Lemma Prim2SF_infinity : Prim2SF infinity = S754_infinity false.
Proof. vm_compute. reflexivity. Qed.

Lemma is_finite_spec x :
  is_finite x = match Prim2SF x with
                | S754_zero _ | S754_finite _ _ _ => true
                | _ => false
                end.
Proof.
  unfold is_finite, is_nan, is_infinity.
  rewrite !eqb_spec, abs_spec, Prim2SF_infinity.
  destruct (Prim2SF x) as [s|s| |s m e]; try (destruct s); try reflexivity;
    unfold SFeqb; simpl; rewrite Z.compare_refl;
    change (Pos.compare_cont Eq m m) with (Pos.compare m m);
    rewrite Pos.compare_refl; reflexivity.
Qed.

(** X16.  [fpeq] does not depend on the order of its arguments, and a double
    is [fpeq] to itself exactly when it is finite: an infinity or a NaN is
    not within [eps] of itself. *)
Theorem fpeq_symmetric_reflexive x y :
  fpeq x y = fpeq y x /\ fpeq x x = is_finite x.
Proof.
  split; [apply fpeq_sym|].
  destruct (is_finite x) eqn:F; [now apply fpeq_refl|].
  rewrite is_finite_spec in F.
  unfold fpeq. rewrite ltb_spec, abs_spec, sub_spec.
  destruct (Prim2SF x) as [s|s| |s m e]; try discriminate.
  - destruct s; reflexivity.
  - reflexivity.
Qed.

(** ** [vector_refine]: what it hands back *)

(** X17.  [vector_refine] returns in one of two ways.  Without moving a node:
    the list and the two pointers are as they were and the value is 0.  Or
    having moved one: the pointers are left at the end of the last node of
    the new list, and the value is the transit length of the old list less
    that of the new one, both as [vector_transit_len] measures them. *)
Theorem vector_refine_returns vector cx cy vector' ex ey red :
  vector_refine vector cx cy = Returned (vector', ex, ey, red) ->
  (vector' = vector /\ ex = cx /\ ey = cy /\ red = 0) \/
  (exists front v,
     vector' = front ++ [v] /\ ex = x2 v /\ ey = y2 v /\
     red = vector_transit_len vector - vector_transit_len vector').
Proof.
  intros H.
  destruct (vector_refine_cases _ _ _ _ _ _ _ H)
    as [N|(k & tv & j & vs & Hk & Hjk & E & St & O & R)]; [left; exact N|].
  right. unfold vector_optimize in O.
  destruct (optimize_loop_end _ _ _ _ _ _ _ _ O)
    as [(_ & -> & -> & ->)|(_ & front & v & -> & -> & ->)].
  - exists (firstn (S j) vector), tv. repeat split; assumption.
  - exists (firstn (S j) vector ++ tv :: front), v.
    repeat split; try assumption.
    rewrite E, <- app_assoc. reflexivity.
Qed.

Lemma vector_refine_returns_witness :
  ([mkVector 0 0 1 0; mkVector 1 0 2 0; mkVector 1.5 7 1.5 8;
    mkVector 2 0 10 0; mkVector 10 1 10 2] = detour /\
   10 = 0 /\ 2 = 0 /\
   vector_transit_len detour
   - vector_transit_len [mkVector 0 0 1 0; mkVector 1 0 2 0;
                         mkVector 1.5 7 1.5 8; mkVector 2 0 10 0;
                         mkVector 10 1 10 2] = 0) \/
  (exists front v,
     [mkVector 0 0 1 0; mkVector 1 0 2 0; mkVector 1.5 7 1.5 8;
      mkVector 2 0 10 0; mkVector 10 1 10 2] = front ++ [v] /\
     10 = x2 v /\ 2 = y2 v /\
     vector_transit_len detour
     - vector_transit_len [mkVector 0 0 1 0; mkVector 1 0 2 0;
                           mkVector 1.5 7 1.5 8; mkVector 2 0 10 0;
                           mkVector 10 1 10 2]
     = vector_transit_len detour
       - vector_transit_len [mkVector 0 0 1 0; mkVector 1 0 2 0;
                             mkVector 1.5 7 1.5 8; mkVector 2 0 10 0;
                             mkVector 10 1 10 2]).
Proof.
  apply (vector_refine_returns detour 0 0). vm_compute. reflexivity.
Defined.

(** ** [vectors_parse]: one line at a time *)




